(** * azure-sql-ai-assistant: schema introspection and query pipeline

    A shallow embedding of [src/index.ts]: the three classes
    [SQLSchemaInspector], [SQLQueryAssistant] and [SQLAnalyzer].

    - JavaScript strings are sequences of UTF-16 code units ([jsstring]).
    - An [async] method is a state-passing computation that either resolves
      with a value or rejects with a thrown value ([M], [Outcome]).  The
      pipeline awaits every call before issuing the next one, so one
      invocation is a single sequential flow.
    - The database driver ([mssql]) and the language-model client
      ([openai]) are external: they are the fields of the class
      [Externals], functions of an opaque [World].  Every call that crosses
      that boundary is recorded in the [trace] of the state.
    - The SQL text of the five catalog statements is not spelled out: a
      statement is a constructor of [Query], which carries the table name
      spliced into it and fixes the type of the rows it returns. *)

From Stdlib Require Import String Ascii List NArith ZArith Lia Bool Arith.
From Stdlib Require Import Permutation.
From Equations Require Import Equations.
Import ListNotations.
Open Scope list_scope.

(* ================================================================== *)
(** * JavaScript strings *)

Definition jschar := N.
Definition jsstring := list jschar.

(** An ASCII literal of the source as code units. *)
Definition lit (s : string) : jsstring :=
  map N_of_ascii (list_ascii_of_string s).

Definition NL : jschar := 10%N.        (* "\n" *)
Definition BACKTICK : jschar := 96%N.

Definition jsstring_eqb (a b : jsstring) : bool :=
  if list_eq_dec N.eq_dec a b then true else false.

(** The class [\s] of a JavaScript regular expression: WhiteSpace and
    LineTerminator of ECMAScript. *)
Definition is_space (c : jschar) : bool :=
  existsb (N.eqb c)
    [9; 10; 11; 12; 13; 32; 160; 5760; 8232; 8233; 8239; 8287; 12288; 65279]%N
  || (N.leb 8192 c && N.leb c 8202).

Fixpoint starts_with (p s : jsstring) : bool :=
  match p, s with
  | [], _ => true
  | a :: p', b :: s' => N.eqb a b && starts_with p' s'
  | _ :: _, [] => false
  end.

(** [occurs p s]: [p] is a substring of [s]. *)
Fixpoint occurs (p s : jsstring) : bool :=
  match s with
  | [] => starts_with p []
  | _ :: r => starts_with p s || occurs p r
  end.

(** [Array.prototype.join] on an array of strings. *)
Fixpoint join (sep : jsstring) (l : list jsstring) : jsstring :=
  match l with
  | [] => []
  | [x] => x
  | x :: r => x ++ sep ++ join sep r
  end.

(* ------------------------------------------------------------------ *)
(** ** [cleanQuery] *)

Definition FENCE : jsstring := [BACKTICK; BACKTICK; BACKTICK].
Definition FENCE_SQL : jsstring := FENCE ++ lit "sql".

(** A regular expression is given by its match at the head of a string:
    the number of code units it consumes there, if it matches.  *)

(** [/```sql\n?/]: the tagged fence, and greedily one newline after it. *)
Definition match_fence_sql (s : jsstring) : option nat :=
  if starts_with FENCE_SQL s
  then Some (if starts_with [NL] (skipn 6 s) then 7 else 6)
  else None.

(** [/```/] *)
Definition match_fence (s : jsstring) : option nat :=
  if starts_with FENCE s then Some 3 else None.

(** [s.replace(re, empty)] with the [g] flag and the empty string as
    replacement: scan from the left; where [re] matches, drop the match
    and go on after it; elsewhere keep the code unit and move one to the
    right. *)
Equations? replace_all_empty (re : jsstring -> option nat) (s : jsstring)
  : jsstring by wf (List.length s) lt :=
  replace_all_empty re [] := [];
  replace_all_empty re (c :: r) with re (c :: r) => {
    | Some (S k) := replace_all_empty re (skipn k r);
    | _ := c :: replace_all_empty re r }.
Proof. rewrite length_skipn. simpl. lia. Qed.

Definition strip_sql : jsstring -> jsstring := replace_all_empty match_fence_sql.
Definition strip_fence : jsstring -> jsstring := replace_all_empty match_fence.

(** The third replace, of [/^\s+|\s+$/g] by the empty string.  [^\s+] takes the longest run of white
    space at the start; [\s+$] matches at the first position from which
    everything up to the end is white space. *)
Fixpoint trim_start (s : jsstring) : jsstring :=
  match s with
  | [] => []
  | c :: r => if is_space c then trim_start r else s
  end.

Fixpoint trim_end (s : jsstring) : jsstring :=
  match s with
  | [] => []
  | c :: r => if forallb is_space s then [] else c :: trim_end r
  end.

Definition trim (s : jsstring) : jsstring := trim_end (trim_start s).

Definition cleanQuery (query : jsstring) : jsstring :=
  trim (strip_fence (strip_sql query)).

(* ================================================================== *)
(** * Data model *)

(** A value thrown or rejected: an [Error] (or a subclass) with its
    [message], or anything else. *)
Inductive Thrown :=
| JsError (message : jsstring)
| JsNonError.

(** [err instanceof Error ? err.message : "Unknown error"] *)
Definition error_message (err : Thrown) : jsstring :=
  match err with
  | JsError message => message
  | JsNonError => lit "Unknown error"
  end.

Inductive Outcome (A : Type) :=
| Resolved (a : A)
| Rejected (err : Thrown).
Arguments Resolved {A} a.
Arguments Rejected {A} err.

Inductive Language := english | ukrainian.

Definition language_text (l : Language) : jsstring :=
  match l with
  | english => lit "english"
  | ukrainian => lit "ukrainian"
  end.

Record ColumnMetadata := {
  COLUMN_NAME : jsstring;
  DATA_TYPE : jsstring;
  IS_NULLABLE : jsstring;
  COLUMN_DEFAULT : option jsstring;
  COLUMN_DESCRIPTION : option jsstring
}.

Record TableMetadata := {
  TABLE_NAME : jsstring;
  TABLE_DESCRIPTION : option jsstring
}.

(** The rows of the three remaining catalog queries are typed [any] in the
    source; their fields are those of the SELECT lists. *)
Record PrimaryKeyRow := { pk_COLUMN_NAME : jsstring }.

Record ForeignKeyRow := {
  FK_NAME : jsstring;
  fk_TABLE_NAME : jsstring;
  fk_COLUMN_NAME : jsstring;
  REFERENCED_TABLE_NAME : jsstring;
  REFERENCED_COLUMN_NAME : jsstring
}.

Record IndexRow := {
  INDEX_NAME : jsstring;
  ix_COLUMN_NAME : jsstring;
  is_unique : bool
}.

(** [SQLQueryResult]: a record of the result set of an arbitrary statement.
    The program only hands these to [JSON.stringify] and [console.log]. *)
Inductive JsValue :=
| JsNull
| JsBool (b : bool)
| JsNumber (z : Z)
| JsString (s : jsstring).

Definition SQLQueryResult := list (jsstring * JsValue).

(** The statements [executeQuery] is called with, indexed by the type of
    the rows of their record set: the five catalog queries of
    [inspectSchema] (four of them with the table name spliced in) and the
    generated statement. *)
Inductive Query : Type -> Type :=
| SelectTables : Query TableMetadata
| SelectColumns (tableName : jsstring) : Query ColumnMetadata
| SelectPrimaryKeys (tableName : jsstring) : Query PrimaryKeyRow
| SelectForeignKeys (tableName : jsstring) : Query ForeignKeyRow
| SelectIndexes (tableName : jsstring) : Query IndexRow
| SqlText (query : jsstring) : Query SQLQueryResult.

Inductive Role := system | user.

Record ChatMessage := { role : Role; content : jsstring }.

Record ChatRequest := {
  model : jsstring;
  messages : list ChatMessage;
  temperature : Z
}.

Record ResponseMessage := { message_content : option jsstring }.
Record Choice := { message : ResponseMessage }.
Record ChatCompletion := { choices : list Choice }.

Record AIClientConfig := {
  ai_model : jsstring;
  language : option Language
}.

(* ================================================================== *)
(** * The outside world *)

Class Externals := {
  World : Type;
  ConnectionPool : Type;
  sql_config : Type;
  (** [new sql.ConnectionPool(config).connect()] *)
  pool_connect : sql_config -> World -> World * Outcome ConnectionPool;
  (** [pool.close()] *)
  pool_close : ConnectionPool -> World -> World * Outcome unit;
  (** [pool.request().query(text)], then [.recordset] *)
  pool_query : forall T, ConnectionPool -> Query T -> World -> World * Outcome (list T);
  (** [client.chat.completions.create(request)] *)
  chat_create : ChatRequest -> World -> World * Outcome ChatCompletion;
  JSON_stringify : list SQLQueryResult -> jsstring
}.

Section Program.
Context `{Externals}.

Inductive Event :=
| EvConnect (config : sql_config) (r : Outcome ConnectionPool)
| EvClose (p : ConnectionPool) (r : Outcome unit)
| EvQuery (p : ConnectionPool) (T : Type) (q : Query T)
| EvChat (request : ChatRequest)
| EvConsoleLog (results : list SQLQueryResult).

(** [pool] is the field [this.pool] of the inspector; [trace] lists the
    external calls made so far, the latest first. *)
Record State := {
  world : World;
  pool : option ConnectionPool;
  trace : list Event
}.

Definition M (A : Type) : Type := State -> State * Outcome A.

Definition ret {A} (a : A) : M A := fun st => (st, Resolved a).

Definition throw {A} (err : Thrown) : M A := fun st => (st, Rejected err).

Definition bind {A B} (m : M A) (f : A -> M B) : M B :=
  fun st =>
    match m st with
    | (st', Resolved a) => f a st'
    | (st', Rejected err) => (st', Rejected err)
    end.

(** [try { m } catch (err) { handler err }] *)
Definition try_catch {A} (m : M A) (handler : Thrown -> M A) : M A :=
  fun st =>
    match m st with
    | (st', Resolved a) => (st', Resolved a)
    | (st', Rejected err) => handler err st'
    end.

Definition get_pool : M (option ConnectionPool) :=
  fun st => (st, Resolved (pool st)).

Definition set_pool (p : option ConnectionPool) : M unit :=
  fun st => ({| world := world st; pool := p; trace := trace st |}, Resolved tt).

Definition call {A} (f : World -> World * Outcome A) (ev : Outcome A -> Event) : M A :=
  fun st =>
    let (w, r) := f (world st) in
    ({| world := w; pool := pool st; trace := ev r :: trace st |}, r).

Definition console_log (results : list SQLQueryResult) : M unit :=
  fun st =>
    ({| world := world st; pool := pool st;
        trace := EvConsoleLog results :: trace st |}, Resolved tt).

End Program.

Declare Scope js_scope.
Delimit Scope js_scope with js.
Notation "x <- m ;; k" := (bind m (fun x => k))
  (at level 61, m at next level, right associativity) : js_scope.
Notation "m ;; k" := (bind m (fun _ => k))
  (at level 61, right associativity) : js_scope.
Open Scope js_scope.

(* ================================================================== *)
(** * SQLSchemaInspector *)

(** ** Rendering: the [schema += ...] steps of [inspectSchema] *)

Definition TITLE : jsstring :=
  lit "Database Schema:" ++ NL :: lit "=================" ++ [NL; NL].

Definition SEPARATOR : jsstring :=
  lit "----------------------------------------" ++ [NL].

(** Truthiness of a [string | null] field. *)
Definition truthy (v : option jsstring) : bool :=
  match v with
  | Some (_ :: _) => true
  | _ => false
  end.

(** A [string | null] field spliced into a template literal. *)
Definition spliced (v : option jsstring) : jsstring :=
  match v with
  | Some s => s
  | None => lit "null"
  end.

Definition add_header (schema : jsstring) (table : TableMetadata) : jsstring :=
  let schema := schema ++ lit "Table: " ++ TABLE_NAME table ++ [NL] in
  let schema :=
    if truthy (TABLE_DESCRIPTION table)
    then schema ++ lit "Description: " ++ spliced (TABLE_DESCRIPTION table) ++ [NL]
    else schema in
  schema ++ SEPARATOR.

Definition column_properties (column : ColumnMetadata) : list jsstring :=
  let properties := [] in
  let properties :=
    if jsstring_eqb (IS_NULLABLE column) (lit "NO")
    then properties ++ [lit "NOT NULL"] else properties in
  match COLUMN_DEFAULT column with
  | Some d => properties ++ [lit "DEFAULT: " ++ d]
  | None => properties
  end.

Definition add_column (schema : jsstring) (column : ColumnMetadata) : jsstring :=
  let schema :=
    schema ++ lit "- " ++ COLUMN_NAME column ++ lit " (" ++ DATA_TYPE column ++ lit ")" in
  let properties := column_properties column in
  let schema :=
    if 0 <? List.length properties
    then schema ++ lit " [" ++ join (lit ", ") properties ++ lit "]"
    else schema in
  let schema :=
    if truthy (COLUMN_DESCRIPTION column)
    then schema ++ NL :: lit "  Description: " ++ spliced (COLUMN_DESCRIPTION column)
    else schema in
  schema ++ [NL].

Definition add_columns (schema : jsstring) (columns : list ColumnMetadata) : jsstring :=
  fold_left add_column columns (schema ++ lit "Columns:" ++ [NL]).

Definition add_primary_keys (schema : jsstring) (primaryKeys : list PrimaryKeyRow)
  : jsstring :=
  if 0 <? List.length primaryKeys
  then fold_left (fun schema pk => schema ++ lit "- " ++ pk_COLUMN_NAME pk ++ [NL])
         primaryKeys (schema ++ NL :: lit "Primary Keys:" ++ [NL])
  else schema.

Definition add_foreign_keys (schema : jsstring) (foreignKeys : list ForeignKeyRow)
  : jsstring :=
  if 0 <? List.length foreignKeys
  then fold_left
         (fun schema fk =>
            schema ++ lit "- " ++ fk_COLUMN_NAME fk ++ lit " -> "
              ++ REFERENCED_TABLE_NAME fk ++ lit "(" ++ REFERENCED_COLUMN_NAME fk
              ++ lit ")" ++ [NL])
         foreignKeys (schema ++ NL :: lit "Foreign Keys:" ++ [NL])
  else schema.

(** The [Map<string, {columns; isUnique}>] of the index block: entries in
    insertion order. *)
Record IndexEntry := { columns : list jsstring; isUnique : bool }.

Definition IndexMap := list (jsstring * IndexEntry).

Fixpoint map_has (k : jsstring) (m : IndexMap) : bool :=
  match m with
  | [] => false
  | (k', _) :: r => jsstring_eqb k' k || map_has k r
  end.

(** [m.set(k, v)]: a new key goes last, a present key keeps its place. *)
Fixpoint map_set (k : jsstring) (v : IndexEntry) (m : IndexMap) : IndexMap :=
  match m with
  | [] => [(k, v)]
  | (k', v') :: r =>
      if jsstring_eqb k' k then (k, v) :: r else (k', v') :: map_set k v r
  end.

(** [m.get(k)!.columns.push(c)]: the entry is changed in place.  The key
    is present wherever the source does this. *)
Fixpoint map_push_column (k c : jsstring) (m : IndexMap) : IndexMap :=
  match m with
  | [] => []
  | (k', v') :: r =>
      if jsstring_eqb k' k
      then (k', {| columns := columns v' ++ [c]; isUnique := isUnique v' |}) :: r
      else (k', v') :: map_push_column k c r
  end.

Definition collect_index (uniqueIndexes : IndexMap) (index : IndexRow) : IndexMap :=
  let uniqueIndexes :=
    if negb (map_has (INDEX_NAME index) uniqueIndexes)
    then map_set (INDEX_NAME index)
           {| columns := []; isUnique := is_unique index |} uniqueIndexes
    else uniqueIndexes in
  map_push_column (INDEX_NAME index) (ix_COLUMN_NAME index) uniqueIndexes.

Definition add_index_line (schema : jsstring) (entry : jsstring * IndexEntry)
  : jsstring :=
  let (indexName, value) := entry in
  schema ++ lit "- " ++ indexName
    ++ (if isUnique value then lit " (UNIQUE)" else [])
    ++ lit ": " ++ join (lit ", ") (columns value) ++ [NL].

Definition add_indexes (schema : jsstring) (indexes : list IndexRow) : jsstring :=
  if 0 <? List.length indexes
  then
    let schema := schema ++ NL :: lit "Indexes:" ++ [NL] in
    let uniqueIndexes := fold_left collect_index indexes [] in
    fold_left add_index_line uniqueIndexes schema
  else schema.

(** ** Methods *)

Section Inspector.
Context `{Externals}.
Variable config : sql_config.

Definition connect : M unit :=
  try_catch
    (p <- get_pool ;;
     match p with
     | None =>
         h <- call (pool_connect config) (EvConnect config) ;;
         set_pool (Some h)
     | Some _ => ret tt
     end)
    (fun err =>
       throw (JsError (lit "Failed to connect to database: " ++ error_message err))).

Definition disconnect : M unit :=
  p <- get_pool ;;
  match p with
  | Some h => call (pool_close h) (EvClose h) ;; set_pool None
  | None => ret tt
  end.

Definition executeQuery {T} (query : Query T) : M (list T) :=
  p <- get_pool ;;
  match p with
  | None => connect
  | Some _ => ret tt
  end ;;
  p <- get_pool ;;
  match p with
  | Some h => call (pool_query T h query) (fun _ => EvQuery h T query)
  | None =>
      (* [this.pool!.request()] on [null] *)
      throw (JsError (lit "Cannot read properties of null (reading 'request')"))
  end.

(** The body of the table loop: [schema] before, [schema] after. *)
Definition table_section (schema : jsstring) (table : TableMetadata) : M jsstring :=
  let tableName := TABLE_NAME table in
  columns <- executeQuery (SelectColumns tableName) ;;
  let schema := add_header schema table in
  let schema := add_columns schema columns in
  primaryKeys <- executeQuery (SelectPrimaryKeys tableName) ;;
  let schema := add_primary_keys schema primaryKeys in
  foreignKeys <- executeQuery (SelectForeignKeys tableName) ;;
  let schema := add_foreign_keys schema foreignKeys in
  indexes <- executeQuery (SelectIndexes tableName) ;;
  let schema := add_indexes schema indexes in
  ret (schema ++ [NL; NL]).

Fixpoint for_each_table (tables : list TableMetadata) (schema : jsstring)
  : M jsstring :=
  match tables with
  | [] => ret schema
  | table :: rest =>
      schema <- table_section schema table ;;
      for_each_table rest schema
  end.

Definition inspectSchema : M jsstring :=
  try_catch
    (connect ;;
     p <- get_pool ;;
     match p with
     | None => throw (JsError (lit "Failed to establish database connection"))
     | Some _ => ret tt
     end ;;
     tables <- executeQuery SelectTables ;;
     for_each_table tables TITLE)
    (fun error =>
       throw (JsError (lit "Failed to inspect database schema: "
                         ++ error_message error))).

End Inspector.

(* ================================================================== *)
(** * SQLQueryAssistant *)

Definition INDENT : jsstring := lit "                    ".

Definition generate_request (aiConfig : AIClientConfig) (prompt schema : jsstring)
  : ChatRequest :=
  {| model := ai_model aiConfig;
     messages :=
       [ {| role := system;
            content :=
              lit "You are a SQL expert. Given a database schema, generate a SQL query to answer the user's question."
              ++ NL :: INDENT ++ lit "Database Schema:"
              ++ NL :: INDENT ++ schema
              ++ NL :: INDENT
              ++ NL :: INDENT ++ lit "Rules:"
              ++ NL :: INDENT ++ lit "1. Return ONLY the SQL query, nothing else"
              ++ NL :: INDENT ++ lit "2. Use proper SQL syntax"
              ++ NL :: INDENT ++ lit "3. Make sure the query is safe and efficient" |};
         {| role := user; content := prompt |} ];
     temperature := 0 |}.

(** The constructor stores [config.language || "english"]. *)
Definition configured_language (aiConfig : AIClientConfig) : Language :=
  match language aiConfig with
  | Some l => l
  | None => english
  end.

Definition format_request (aiConfig : AIClientConfig) (query : jsstring)
    (results_json : jsstring) : ChatRequest :=
  {| model := ai_model aiConfig;
     messages :=
       [ {| role := system;
            content :=
              lit "Format the SQL query results into a natural language response in "
              ++ language_text (configured_language aiConfig) ++ lit "." |};
         {| role := user;
            content :=
              lit "SQL Query: " ++ query ++ NL :: lit "Results: " ++ results_json
              ++ [NL; NL] ++ lit "Please provide a natural language response:" |} ];
     temperature := 0 |}.

(** [content || empty string] for [content : string | null] *)
Definition or_empty (content : option jsstring) : jsstring :=
  if truthy content then spliced content else [].

Section Assistant.
Context `{Externals}.
Variable aiConfig : AIClientConfig.

(** [response.choices[0].message.content]; [choices[0]] is [undefined]
    for an empty array, and reading [.message] of it throws. *)
Definition first_content (response : ChatCompletion) : M (option jsstring) :=
  match choices response with
  | choice :: _ => ret (message_content (message choice))
  | [] =>
      throw (JsError (lit "Cannot read properties of undefined (reading 'message')"))
  end.

Definition generateSQLQuery (prompt schema : jsstring) : M jsstring :=
  response <- call (chat_create (generate_request aiConfig prompt schema))
                (fun _ => EvChat (generate_request aiConfig prompt schema)) ;;
  content <- first_content response ;;
  ret (cleanQuery (or_empty content)).

Definition formatResponse (query : jsstring) (results : list SQLQueryResult)
  : M jsstring :=
  let request := format_request aiConfig query (JSON_stringify results) in
  response <- call (chat_create request) (fun _ => EvChat request) ;;
  content <- first_content response ;;
  ret (or_empty content).

End Assistant.

(* ================================================================== *)
(** * SQLAnalyzer *)

Section Analyzer.
Context `{Externals}.
Variable dbConfig : sql_config.
Variable aiConfig : AIClientConfig.

Definition analyzeAndQuery (prompt : jsstring) : M jsstring :=
  try_catch
    (schema <- inspectSchema dbConfig ;;
     query <- generateSQLQuery aiConfig prompt schema ;;
     results <- executeQuery dbConfig (SqlText query) ;;
     console_log results ;;
     formatResponse aiConfig query results)
    (fun error =>
       throw (JsError (lit "Failed to analyze and query: " ++ error_message error))).

Definition analyzer_disconnect : M unit := disconnect.

End Analyzer.

(* ================================================================== *)
(** * The schema document, block by block

    What a table section is said to consist of.  These follow the
    description of the document, not the loop of [inspectSchema]; the
    theorems below relate the two. *)

(** The distinct names of a list, each at its first occurrence. *)
Fixpoint first_seen (names : list jsstring) : list jsstring :=
  match names with
  | [] => []
  | n :: rest => n :: filter (fun n' => negb (jsstring_eqb n n')) (first_seen rest)
  end.

(** The catalog rows that contribute to the index [name], in row order. *)
Definition rows_of (name : jsstring) (indexes : list IndexRow) : list IndexRow :=
  filter (fun r => jsstring_eqb (INDEX_NAME r) name) indexes.

Definition first_flag (name : jsstring) (indexes : list IndexRow) : bool :=
  match rows_of name indexes with
  | r :: _ => is_unique r
  | [] => false
  end.

Definition all_flags (name : jsstring) (indexes : list IndexRow) : bool :=
  forallb is_unique (rows_of name indexes).

Definition index_line (name : jsstring) (unique : bool) (cols : list jsstring)
  : jsstring :=
  lit "- " ++ name ++ (if unique then lit " (UNIQUE)" else [])
    ++ lit ": " ++ join (lit ", ") cols ++ [NL].

(** The Indexes block, with the rule [unique] that decides the suffix. *)
Definition indexes_block (unique : jsstring -> list IndexRow -> bool)
    (indexes : list IndexRow) : jsstring :=
  match indexes with
  | [] => []
  | _ :: _ =>
      NL :: lit "Indexes:" ++ [NL]
        ++ concat (map (fun name =>
                          index_line name (unique name indexes)
                            (map ix_COLUMN_NAME (rows_of name indexes)))
                     (first_seen (map INDEX_NAME indexes)))
  end.

(** The index names with their columns and flag, in the order of the
    block. *)
Definition index_entry (indexes : list IndexRow) (name : jsstring) : IndexEntry :=
  {| columns := map ix_COLUMN_NAME (rows_of name indexes);
     isUnique := first_flag name indexes |}.

Definition grouped (indexes : list IndexRow) : IndexMap :=
  map (fun name => (name, index_entry indexes name))
    (first_seen (map INDEX_NAME indexes)).

(** All rows of one index name carry the same uniqueness flag. *)
Definition flags_agree (indexes : list IndexRow) : Prop :=
  forall r1 r2, In r1 indexes -> In r2 indexes ->
    INDEX_NAME r1 = INDEX_NAME r2 -> is_unique r1 = is_unique r2.

Definition description_block (table : TableMetadata) : jsstring :=
  match TABLE_DESCRIPTION table with
  | Some (c :: text) => lit "Description: " ++ (c :: text) ++ [NL]
  | _ => []
  end.

Definition column_line (column : ColumnMetadata) : jsstring :=
  lit "- " ++ COLUMN_NAME column ++ lit " (" ++ DATA_TYPE column ++ lit ")"
    ++ match column_properties column with
       | [] => []
       | properties => lit " [" ++ join (lit ", ") properties ++ lit "]"
       end
    ++ match COLUMN_DESCRIPTION column with
       | Some (c :: text) => NL :: lit "  Description: " ++ c :: text
       | _ => []
       end
    ++ [NL].

Definition columns_block (columns : list ColumnMetadata) : jsstring :=
  lit "Columns:" ++ [NL] ++ concat (map column_line columns).

Definition primary_key_line (pk : PrimaryKeyRow) : jsstring :=
  lit "- " ++ pk_COLUMN_NAME pk ++ [NL].

Definition primary_keys_block (primaryKeys : list PrimaryKeyRow) : jsstring :=
  match primaryKeys with
  | [] => []
  | _ :: _ => NL :: lit "Primary Keys:" ++ [NL] ++ concat (map primary_key_line primaryKeys)
  end.

Definition foreign_key_line (fk : ForeignKeyRow) : jsstring :=
  lit "- " ++ fk_COLUMN_NAME fk ++ lit " -> " ++ REFERENCED_TABLE_NAME fk
    ++ lit "(" ++ REFERENCED_COLUMN_NAME fk ++ lit ")" ++ [NL].

Definition foreign_keys_block (foreignKeys : list ForeignKeyRow) : jsstring :=
  match foreignKeys with
  | [] => []
  | _ :: _ => NL :: lit "Foreign Keys:" ++ [NL] ++ concat (map foreign_key_line foreignKeys)
  end.

(* ================================================================== *)
(** * Observations on states and traces *)

Section Observations.
Context `{Externals}.

(** [keeps R m]: running [m] takes every state to an [R]-related one,
    whether it resolves or rejects. *)
Definition keeps (R : State -> State -> Prop) {A} (m : M A) : Prop :=
  forall st, R st (fst (m st)).

(** The trace grows by events that satisfy [P]. *)
Definition only_events (P : Event -> Prop) (st st' : State) : Prop :=
  exists new, trace st' = new ++ trace st /\ Forall P new.

(** A pool held before is the pool held after. *)
Definition pool_kept (st st' : State) : Prop :=
  forall h, pool st = Some h -> pool st' = Some h.

Definition is_close (ev : Event) : Prop :=
  match ev with
  | EvClose _ _ => True
  | _ => False
  end.

Definition is_chat (ev : Event) : Prop :=
  match ev with
  | EvChat _ => True
  | _ => False
  end.

(** The event is a request that [formatResponse] issues. *)
Definition is_format_call (aiConfig : AIClientConfig) (ev : Event) : Prop :=
  exists query results_json, ev = EvChat (format_request aiConfig query results_json).

(** Connections opened and closed so far. *)
Fixpoint opened (tr : list Event) : nat :=
  match tr with
  | [] => 0
  | EvConnect _ (Resolved _) :: r => S (opened r)
  | _ :: r => opened r
  end.

Fixpoint closed (tr : list Event) : nat :=
  match tr with
  | [] => 0
  | EvClose _ (Resolved _) :: r => S (closed r)
  | _ :: r => closed r
  end.

(** The handles that are live are exactly the one in [this.pool]. *)
Definition handle_inv (st : State) : Prop :=
  opened (trace st)
  = closed (trace st) + match pool st with Some _ => 1 | None => 0 end.

(** A step that does not break [handle_inv]. *)
Definition inv_kept (st st' : State) : Prop := handle_inv st -> handle_inv st'.

(** A freshly constructed inspector. *)
Definition fresh (w : World) : State :=
  {| world := w; pool := None; trace := [] |}.

Inductive InspectorCall :=
| CallConnect
| CallDisconnect
| CallExecuteQuery (T : Type) (q : Query T)
| CallInspectSchema.

Definition run_call (config : sql_config) (c : InspectorCall) (st : State) : State :=
  match c with
  | CallConnect => fst (connect config st)
  | CallDisconnect => fst (disconnect st)
  | CallExecuteQuery T q => fst (executeQuery config q st)
  | CallInspectSchema => fst (inspectSchema config st)
  end.

Definition run_calls (config : sql_config) (calls : list InspectorCall) (st : State)
  : State :=
  fold_left (fun st c => run_call config c st) calls st.

End Observations.

(* ================================================================== *)
(** * A small concrete world

    A catalog with the tables [tables], each with the columns, key and
    index of [Users(Id, Name, Country)]; every generated statement fails;
    the model always answers [reply].  The world counts the calls. *)

Definition users_table : TableMetadata :=
  {| TABLE_NAME := lit "Users"; TABLE_DESCRIPTION := None |}.

Definition users_columns : list ColumnMetadata :=
  [ {| COLUMN_NAME := lit "Id"; DATA_TYPE := lit "int"; IS_NULLABLE := lit "NO";
       COLUMN_DEFAULT := None; COLUMN_DESCRIPTION := None |};
    {| COLUMN_NAME := lit "Name"; DATA_TYPE := lit "varchar"; IS_NULLABLE := lit "NO";
       COLUMN_DEFAULT := None; COLUMN_DESCRIPTION := None |};
    {| COLUMN_NAME := lit "Country"; DATA_TYPE := lit "varchar"; IS_NULLABLE := lit "YES";
       COLUMN_DEFAULT := Some (lit "'UA'"); COLUMN_DESCRIPTION := None |} ].

Definition users_indexes : list IndexRow :=
  [ {| INDEX_NAME := lit "IX_Users_Name"; ix_COLUMN_NAME := lit "Name";
       is_unique := true |} ].

Definition demo_failure : jsstring := lit "Invalid object name 'Orders'.".

Definition demo_query (tables : list TableMetadata) (T : Type) (h : nat)
    (q : Query T) (w : nat) : nat * Outcome (list T) :=
  match q in Query T return nat * Outcome (list T) with
  | SelectTables => (S w, Resolved tables)
  | SelectColumns _ => (S w, Resolved users_columns)
  | SelectPrimaryKeys _ => (S w, Resolved [ {| pk_COLUMN_NAME := lit "Id" |} ])
  | SelectForeignKeys _ => (S w, Resolved [])
  | SelectIndexes _ => (S w, Resolved users_indexes)
  | SqlText _ => (S w, Rejected (JsError demo_failure))
  end.

Definition demo_world (tables : list TableMetadata) (reply : option jsstring)
  : Externals :=
  {| World := nat;
     ConnectionPool := nat;
     sql_config := unit;
     pool_connect := fun _ w => (S w, Resolved w);
     pool_close := fun _ w => (S w, Resolved tt);
     pool_query := demo_query tables;
     chat_create := fun _ w =>
       (S w, Resolved {| choices := [ {| message := {| message_content := reply |} |} ] |});
     JSON_stringify := fun _ => lit "[]" |}.

Definition fenced_select_1 : jsstring :=
  FENCE_SQL ++ NL :: lit "SELECT 1" ++ NL :: FENCE.

Definition demo_ai : AIClientConfig :=
  {| ai_model := lit "gpt-4"; language := Some ukrainian |}.

(** The world where the model answers the fenced [SELECT 1], the world
    with an empty catalog and a model without content, and two states of
    an inspector: fresh, and connected once. *)
Definition world_select_1 : Externals :=
  demo_world [users_table] (Some fenced_select_1).

Definition world_empty : Externals := demo_world [] None.

Definition demo_fresh (E : Externals) (w : @World E) : @State E := @fresh E w.

Definition demo_connected (tables : list TableMetadata) (reply : option jsstring)
  : @State (demo_world tables reply) :=
  @Build_State (demo_world tables reply) 1 (Some 0)
    [@EvConnect (demo_world tables reply) tt (Resolved 0)].

(** The index rows of a table with a two-column index and a unique
    index, as the catalog returns them (ordered by index name, then by
    key ordinal). *)
Definition orders_indexes : list IndexRow :=
  [ {| INDEX_NAME := lit "IX_Orders_Customer"; ix_COLUMN_NAME := lit "CustomerId";
       is_unique := false |};
    {| INDEX_NAME := lit "IX_Orders_Customer"; ix_COLUMN_NAME := lit "Date";
       is_unique := false |};
    {| INDEX_NAME := lit "UQ_Orders_Number"; ix_COLUMN_NAME := lit "Number";
       is_unique := true |} ].

(* ================================================================== *)
(** * Further observations: sections, queries, the pool in use *)

(** The text of one table section, from the rows the catalog gave. *)
Definition table_section_text (table : TableMetadata)
    (columns : list ColumnMetadata) (primaryKeys : list PrimaryKeyRow)
    (foreignKeys : list ForeignKeyRow) (indexes : list IndexRow) : jsstring :=
  lit "Table: " ++ TABLE_NAME table ++ NL :: description_block table
    ++ SEPARATOR
    ++ columns_block columns
    ++ primary_keys_block primaryKeys
    ++ foreign_keys_block foreignKeys
    ++ indexes_block first_flag indexes
    ++ [NL; NL].

Definition section_of (table : TableMetadata) (section : jsstring) : Prop :=
  exists columns primaryKeys foreignKeys indexes,
    section = table_section_text table columns primaryKeys foreignKeys indexes.

(** A catalog row as the pair of its index name and column, and the
    pairs that the index map holds, entry by entry. *)
Definition row_pair (r : IndexRow) : jsstring * jsstring :=
  (INDEX_NAME r, ix_COLUMN_NAME r).

Definition map_rows (m : IndexMap) : list (jsstring * jsstring) :=
  concat (map (fun entry => map (pair (fst entry)) (columns (snd entry))) m).

(** The string is empty, or its first and its last code unit are not
    white space. *)
Definition outer_space_free (s : jsstring) : bool :=
  match s with
  | [] => true
  | a :: _ => negb (is_space a) && negb (is_space (last s a))
  end.

Section PoolInUse.
Context `{Externals}.

(** The four statements of one table on the pool [h], the latest first. *)
Definition table_queries (h : ConnectionPool) (table : TableMetadata) : list Event :=
  [ EvQuery h _ (SelectIndexes (TABLE_NAME table));
    EvQuery h _ (SelectForeignKeys (TABLE_NAME table));
    EvQuery h _ (SelectPrimaryKeys (TABLE_NAME table));
    EvQuery h _ (SelectColumns (TABLE_NAME table)) ].

(** Calls that neither open nor close a connection and query only [h]. *)
Definition on_pool (h : ConnectionPool) (ev : Event) : Prop :=
  match ev with
  | EvConnect _ _ => False
  | EvClose _ _ => False
  | EvQuery p _ _ => p = h
  | EvChat _ => True
  | EvConsoleLog _ => True
  end.

Definition held_pool_only (h : ConnectionPool) (st st' : State) : Prop :=
  pool st = Some h -> pool st' = Some h /\ only_events (on_pool h) st st'.

End PoolInUse.

(** ** Scripted worlds

    Every external call answers with a fixed outcome; the world counts
    the calls. *)

Definition scripted_query (tables : list TableMetadata)
    (indexes : Outcome (list IndexRow))
    (statement : Outcome (list SQLQueryResult))
    (T : Type) (h : nat) (q : Query T) (w : nat) : nat * Outcome (list T) :=
  match q in Query T return nat * Outcome (list T) with
  | SelectTables => (S w, Resolved tables)
  | SelectColumns _ => (S w, Resolved users_columns)
  | SelectPrimaryKeys _ => (S w, Resolved [ {| pk_COLUMN_NAME := lit "Id" |} ])
  | SelectForeignKeys _ => (S w, Resolved [])
  | SelectIndexes _ => (S w, indexes)
  | SqlText _ => (S w, statement)
  end.

Definition scripted_world (opening : Outcome nat) (closing : Outcome unit)
    (tables : list TableMetadata) (indexes : Outcome (list IndexRow))
    (statement : Outcome (list SQLQueryResult))
    (completion : Outcome ChatCompletion) : Externals :=
  {| World := nat;
     ConnectionPool := nat;
     sql_config := unit;
     pool_connect := fun _ w => (S w, opening);
     pool_close := fun _ w => (S w, closing);
     pool_query := scripted_query tables indexes statement;
     chat_create := fun _ w => (S w, completion);
     JSON_stringify := fun _ => lit "[]" |}.

Definition one_choice (text : option jsstring) : ChatCompletion :=
  {| choices := [ {| message := {| message_content := text |} |} ] |}.

Definition three_users : list SQLQueryResult := [ [ (lit "n", JsNumber 3) ] ].

(** The server cannot be reached. *)
Definition world_down : Externals :=
  scripted_world (Rejected (JsError (lit "ETIMEOUT"))) (Resolved tt)
    [] (Resolved []) (Resolved []) (Resolved (one_choice None)).

(** Closing the pool fails. *)
Definition world_close_fails : Externals :=
  scripted_world (Resolved 7) (Rejected (JsError (lit "ECONNCLOSED")))
    [] (Resolved []) (Resolved []) (Resolved (one_choice None)).

(** Everything works: the model answers [SELECT 3]. *)
Definition world_answers : Externals :=
  scripted_world (Resolved 7) (Resolved tt)
    [users_table] (Resolved users_indexes) (Resolved three_users)
    (Resolved (one_choice (Some (lit "SELECT 3")))).

(** A statement with white space around it. *)
Definition padded_statement : jsstring := lit "  SELECT 1 " ++ [NL].

(** The model answers a fenced statement with white space around it. *)
Definition messy_reply : jsstring :=
  lit "  " ++ FENCE_SQL ++ NL :: lit "  SELECT 1 " ++ NL :: FENCE ++ [NL].

Definition world_messy : Externals :=
  scripted_world (Resolved 7) (Resolved tt)
    [] (Resolved []) (Resolved []) (Resolved (one_choice (Some messy_reply))).

(** The completion has no choice. *)
Definition world_no_choice : Externals :=
  scripted_world (Resolved 7) (Resolved tt)
    [] (Resolved []) (Resolved []) (Resolved {| choices := [] |}).

(** The model service rejects. *)
Definition world_model_down : Externals :=
  scripted_world (Resolved 7) (Resolved tt)
    [] (Resolved []) (Resolved []) (Rejected (JsError (lit "429 Too Many Requests"))).

(** The index statement of every table fails. *)
Definition world_broken_catalog : Externals :=
  scripted_world (Resolved 7) (Resolved tt)
    [users_table; users_table] (Rejected (JsError (lit "permission denied")))
    (Resolved []) (Resolved (one_choice None)).

(** An inspector of a scripted world that holds the pool [7]. *)
Definition holding (E : Externals) (w : @World E) (h : @ConnectionPool E)
  : @State E :=
  @Build_State E w (Some h) [].

Definition plain_column : ColumnMetadata :=
  {| COLUMN_NAME := lit "Country"; DATA_TYPE := lit "varchar";
     IS_NULLABLE := lit "NO"; COLUMN_DEFAULT := Some (lit "'UA'");
     COLUMN_DESCRIPTION := None |}.

(* ================================================================== *)
(** * Properties of [cleanQuery] *)

Lemma replace_all_empty_none re c r :
  re (c :: r) = None ->
  replace_all_empty re (c :: r) = c :: replace_all_empty re r.
Proof. intros H. rewrite replace_all_empty_equation_2, H. reflexivity. Qed.

Lemma replace_all_empty_some re c r k :
  re (c :: r) = Some (S k) ->
  replace_all_empty re (c :: r) = replace_all_empty re (skipn k r).
Proof. intros H. rewrite replace_all_empty_equation_2, H. reflexivity. Qed.

Lemma starts_with_app p r : starts_with p (p ++ r) = true.
Proof. induction p; simpl; [reflexivity|]. now rewrite N.eqb_refl. Qed.

Lemma starts_with_split p s :
  starts_with p s = true -> exists r, s = p ++ r.
Proof.
  revert s. induction p as [|a p IH]; intros s H.
  - now exists s.
  - destruct s as [|b s]; simpl in H; [discriminate|].
    apply andb_true_iff in H. destruct H as [Hab H].
    apply N.eqb_eq in Hab. subst b.
    destruct (IH _ H) as [r ->]. now exists r.
Qed.

(* a match that appears only once a suffix is appended straddles the seam *)
Lemma starts_with_seam p s x :
  starts_with p (s ++ x) = true -> starts_with p s = false ->
  exists q, q <> [] /\ p = s ++ q /\ starts_with q x = true.
Proof.
  revert s. induction p as [|a p IH]; intros s H Hs.
  - discriminate.
  - destruct s as [|b s].
    + exists (a :: p). simpl in *. repeat split; [discriminate | assumption].
    + simpl in *. apply andb_true_iff in H. destruct H as [Hab H].
      rewrite Hab in Hs. simpl in Hs.
      apply N.eqb_eq in Hab. subst b.
      destruct (IH _ H Hs) as (q & Hq & -> & Hx).
      exists q. auto.
Qed.

Lemma starts_with_prefix p q s :
  starts_with (p ++ q) s = true -> starts_with p s = true.
Proof.
  revert s. induction p as [|a p IH]; intros s H; [reflexivity|].
  destruct s as [|b s]; simpl in *; [discriminate|].
  apply andb_true_iff in H. destruct H as [-> H]. simpl. eauto.
Qed.

Lemma strip_fence_nil : strip_fence [] = [].
Proof. reflexivity. Qed.

Lemma strip_fence_hit r : strip_fence (FENCE ++ r) = strip_fence r.
Proof.
  unfold strip_fence. simpl.
  rewrite (replace_all_empty_some _ _ _ 2); reflexivity.
Qed.

Lemma strip_fence_miss c r :
  starts_with FENCE (c :: r) = false ->
  strip_fence (c :: r) = c :: strip_fence r.
Proof.
  intros H. apply replace_all_empty_none. unfold match_fence. now rewrite H.
Qed.

(* Case analysis that drives every proof about [strip_fence]. *)
Lemma fence_cases s :
  s = [] \/ (exists r, s = FENCE ++ r) \/
  (exists c r, s = c :: r /\ starts_with FENCE s = false).
Proof.
  destruct s as [|c r]; [now left | right].
  destruct (starts_with FENCE (c :: r)) eqn:E.
  - left. now apply starts_with_split.
  - right. now exists c, r.
Qed.

Lemma by_length (P : jsstring -> Prop) :
  (forall s, (forall t, List.length t < List.length s -> P t) -> P s) ->
  forall s, P s.
Proof.
  intros H s. remember (List.length s) as n eqn:E. revert s E.
  induction n as [n IH] using lt_wf_ind. intros s ->.
  apply H. intros t Ht. now apply (IH (List.length t)).
Qed.

Lemma strip_fence_head s :
  starts_with [BACKTICK] (strip_fence s) = true ->
  starts_with [BACKTICK] s = true.
Proof.
  destruct (fence_cases s) as [-> | [[r ->] | (c & r & -> & H)]]; auto.
  rewrite (strip_fence_miss _ _ H). auto.
Qed.

Lemma strip_fence_head2 s :
  starts_with [BACKTICK; BACKTICK] (strip_fence s) = true ->
  starts_with [BACKTICK; BACKTICK] s = true.
Proof.
  induction s as [s IH] using by_length.
  destruct (fence_cases s) as [-> | [[r ->] | (c & r & -> & H)]]; auto.
  rewrite (strip_fence_miss _ _ H). simpl.
  intros H2. apply andb_true_iff in H2. destruct H2 as [-> H2]. simpl.
  apply (strip_fence_head r) in H2. exact H2.
Qed.

Lemma strip_fence_clean s : occurs FENCE (strip_fence s) = false.
Proof.
  induction s as [s IH] using by_length.
  destruct (fence_cases s) as [-> | [[r ->] | (c & r & -> & H)]].
  - reflexivity.
  - rewrite strip_fence_hit. apply IH. rewrite length_app. simpl. lia.
  - rewrite (strip_fence_miss _ _ H).
    change (occurs FENCE (c :: strip_fence r))
      with (starts_with FENCE (c :: strip_fence r) || occurs FENCE (strip_fence r)).
    rewrite (IH r) by (simpl; lia). rewrite orb_false_r.
    destruct (starts_with FENCE (c :: strip_fence r)) eqn:E; [|reflexivity].
    rewrite <- H. symmetry.
    change (N.eqb BACKTICK c && starts_with [BACKTICK; BACKTICK] (strip_fence r) = true) in E.
    apply andb_true_iff in E. destruct E as [E1 E2].
    apply strip_fence_head2 in E2.
    change (N.eqb BACKTICK c && starts_with [BACKTICK; BACKTICK] r = true).
    now rewrite E1, E2.
Qed.

Lemma strip_fence_fixed u : occurs FENCE u = false -> strip_fence u = u.
Proof.
  induction u as [|c r IH]; [reflexivity|]. cbn [occurs]. intros H.
  apply orb_false_iff in H. destruct H as [H1 H2].
  rewrite (strip_fence_miss _ _ H1). now rewrite IH.
Qed.

Lemma strip_sql_miss c r :
  starts_with FENCE_SQL (c :: r) = false ->
  strip_sql (c :: r) = c :: strip_sql r.
Proof.
  intros H. apply replace_all_empty_none. unfold match_fence_sql. now rewrite H.
Qed.

Lemma strip_sql_hit_nl r :
  strip_sql (FENCE_SQL ++ NL :: r) = strip_sql r.
Proof.
  unfold strip_sql. simpl.
  rewrite (replace_all_empty_some _ _ _ 6); reflexivity.
Qed.

Lemma strip_sql_hit r :
  starts_with [NL] r = false ->
  strip_sql (FENCE_SQL ++ r) = strip_sql r.
Proof.
  intros H. unfold strip_sql. simpl.
  rewrite (replace_all_empty_some _ _ _ 5); [reflexivity|].
  unfold match_fence_sql. simpl starts_with at 1. simpl skipn.
  now rewrite H.
Qed.

Lemma strip_sql_fixed u : occurs FENCE u = false -> strip_sql u = u.
Proof.
  induction u as [|c r IH]; [reflexivity|]. cbn [occurs]. intros H.
  apply orb_false_iff in H. destruct H as [H1 H2].
  rewrite strip_sql_miss, IH; auto.
  destruct (starts_with FENCE_SQL (c :: r)) eqn:E; [|reflexivity].
  apply (starts_with_prefix FENCE (lit "sql")) in E. congruence.
Qed.

(* trimming *)

Lemma trim_end_spaces w : forallb is_space w = true -> trim_end w = [].
Proof. destruct w; [reflexivity|]. intros H. cbn [trim_end]. now rewrite H. Qed.

Lemma trim_end_app_spaces v w :
  forallb is_space w = true -> trim_end (v ++ w) = trim_end v.
Proof.
  intros Hw. induction v as [|c r IH]; [now apply trim_end_spaces|].
  change ((c :: r) ++ w) with (c :: (r ++ w)).
  cbn [trim_end]. rewrite IH.
  change (c :: r ++ w) with ((c :: r) ++ w).
  now rewrite forallb_app, Hw, andb_true_r.
Qed.

Lemma trim_start_spaces u : forallb is_space u = true -> trim_start u = [].
Proof.
  induction u as [|c r IH]; [reflexivity|]. simpl. intros H.
  apply andb_true_iff in H. destruct H as [-> H]. auto.
Qed.

Lemma trim_start_app u w :
  forallb is_space u = false -> trim_start (u ++ w) = trim_start u ++ w.
Proof.
  induction u as [|c r IH]; [discriminate|]. simpl.
  destruct (is_space c); simpl; auto.
Qed.

Lemma trim_app_spaces u w :
  forallb is_space w = true ->
  trim_end (trim_start (u ++ w)) = trim_end (trim_start u).
Proof.
  intros Hw. destruct (forallb is_space u) eqn:Hu.
  - rewrite !trim_start_spaces; auto. rewrite forallb_app. now rewrite Hu, Hw.
  - rewrite trim_start_app by assumption. now apply trim_end_app_spaces.
Qed.

Lemma trim_end_prefix s : exists w, s = trim_end s ++ w.
Proof.
  induction s as [|c r [w IH]]; [now exists []|].
  cbn [trim_end]. destruct (forallb is_space (c :: r)).
  - now exists (c :: r).
  - exists w. simpl. now rewrite <- IH.
Qed.

Lemma trim_end_not_spaces s :
  forallb is_space s = false -> forallb is_space (trim_end s) = false.
Proof.
  induction s as [|c r IH]; [discriminate|]. intros H.
  cbn [trim_end]. rewrite H. simpl in *.
  destruct (is_space c); simpl in *; auto.
Qed.

Lemma trim_end_idem s : trim_end (trim_end s) = trim_end s.
Proof.
  induction s as [|c r IH]; [reflexivity|].
  cbn [trim_end]. destruct (forallb is_space (c :: r)) eqn:E; [reflexivity|].
  cbn [trim_end]. rewrite IH.
  replace (forallb is_space (c :: trim_end r)) with false; [reflexivity|].
  symmetry. simpl in *. destruct (is_space c); simpl in *; [|reflexivity].
  now apply trim_end_not_spaces.
Qed.

Lemma trim_start_head s :
  trim_start s = [] \/ exists c r, trim_start s = c :: r /\ is_space c = false.
Proof.
  induction s as [|c r IH]; [now left|]. simpl.
  destruct (is_space c) eqn:E; [exact IH|]. right. now exists c, r.
Qed.

Lemma trim_start_trim_end v :
  (v = [] \/ exists c r, v = c :: r /\ is_space c = false) ->
  trim_start (trim_end v) = trim_end v.
Proof.
  intros [-> | (c & r & -> & Hc)]; [reflexivity|].
  cbn [trim_end forallb]. rewrite Hc. simpl. now rewrite Hc.
Qed.

Lemma trim_idem s : trim (trim s) = trim s.
Proof.
  unfold trim. rewrite (trim_start_trim_end (trim_start s)).
  - apply trim_end_idem.
  - apply trim_start_head.
Qed.

Lemma occurs_app_l p a b : occurs p (a ++ b) = false -> occurs p b = false.
Proof.
  induction a as [|c a IH]; [auto|]. simpl. intros H.
  apply orb_false_iff in H. tauto.
Qed.

Lemma starts_with_weaken p s w :
  starts_with p s = true -> starts_with p (s ++ w) = true.
Proof.
  revert s. induction p as [|a p IH]; intros s H; [reflexivity|].
  destruct s as [|b s]; simpl in *; [discriminate|].
  apply andb_true_iff in H. destruct H as [-> H]. simpl. auto.
Qed.

Lemma occurs_app_r p a b :
  p <> [] -> occurs p (a ++ b) = false -> occurs p a = false.
Proof.
  intros Hp. induction a as [|c a IH]; intros H.
  - destruct p; [congruence | reflexivity].
  - simpl in *. apply orb_false_iff in H. destruct H as [H1 H2].
    rewrite (IH H2), orb_false_r.
    destruct (starts_with p (c :: a)) eqn:E; [|reflexivity].
    apply (starts_with_weaken _ _ b) in E. simpl in E. congruence.
Qed.

Lemma trim_clean u : occurs FENCE u = false -> occurs FENCE (trim u) = false.
Proof.
  intros H. unfold trim.
  assert (H1 : occurs FENCE (trim_start u) = false).
  { clear -H. induction u as [|c r IH]; [assumption|]. simpl in *.
    apply orb_false_iff in H. destruct H as [H1 H2].
    destruct (is_space c); [auto|]. simpl. now rewrite H1, H2. }
  destruct (trim_end_prefix (trim_start u)) as [w Hw].
  rewrite Hw in H1. apply occurs_app_r in H1; [assumption | discriminate].
Qed.

Lemma sql_cases s :
  s = [] \/ (exists r, s = FENCE_SQL ++ NL :: r) \/
  (exists r, s = FENCE_SQL ++ r /\ starts_with [NL] r = false) \/
  (exists c r, s = c :: r /\ starts_with FENCE_SQL s = false).
Proof.
  destruct s as [|c r]; [now left | right].
  destruct (starts_with FENCE_SQL (c :: r)) eqn:E.
  - apply starts_with_split in E. destruct E as [t E].
    destruct (starts_with [NL] t) eqn:Et.
    + left. apply starts_with_split in Et. destruct Et as [t' ->].
      now exists t'.
    + right; left. now exists t.
  - right; right. now exists c, r.
Qed.

Lemma seam_newline p s x :
  ~ In NL p ->
  starts_with p s = false -> starts_with p (s ++ NL :: x) = false.
Proof.
  intros Hp Hs. destruct (starts_with p (s ++ NL :: x)) eqn:E; [|reflexivity].
  destruct (starts_with_seam _ _ _ E Hs) as (q & Hq & -> & Hx).
  destruct q as [|a q]; [congruence|]. simpl in Hx.
  apply andb_true_iff in Hx. destruct Hx as [Ha _].
  apply N.eqb_eq in Ha. subst a.
  exfalso. apply Hp. apply in_or_app. right. now left.
Qed.

Lemma NL_not_in_FENCE_SQL : ~ In NL FENCE_SQL.
Proof. vm_compute. intuition discriminate. Qed.

Lemma NL_not_in_FENCE : ~ In NL FENCE.
Proof. vm_compute. intuition discriminate. Qed.

(* pass 1 on text followed by a closing fence on its own line *)
Lemma strip_sql_closing (s : jsstring) :
  strip_sql (s ++ NL :: FENCE) = strip_sql s ++ NL :: FENCE \/
  strip_sql (s ++ NL :: FENCE) = strip_sql s ++ FENCE.
Proof.
  induction s as [s IH] using by_length.
  destruct (sql_cases s) as [-> | [[r ->] | [(r & -> & Hr) | (c & r & -> & H)]]].
  - left. reflexivity.
  - rewrite <- app_assoc. cbn [app]. rewrite !strip_sql_hit_nl. apply IH.
    rewrite length_app. simpl. lia.
  - rewrite <- app_assoc. rewrite (strip_sql_hit r Hr).
    destruct r as [|d r].
    + right. reflexivity.
    + rewrite strip_sql_hit.
      * apply IH. rewrite length_app. simpl. lia.
      * exact Hr.
  - rewrite (strip_sql_miss _ _ H).
    cbn [app]. rewrite strip_sql_miss.
    + destruct (IH r) as [E | E]; [simpl; lia | |]; rewrite E; auto.
    + apply (seam_newline FENCE_SQL (c :: r) FENCE NL_not_in_FENCE_SQL H).
Qed.

Lemma strip_fence_newline (t x : jsstring) :
  strip_fence (t ++ NL :: x) = strip_fence t ++ NL :: strip_fence x.
Proof.
  induction t as [t IH] using by_length.
  destruct (fence_cases t) as [-> | [[r ->] | (c & r & -> & H)]].
  - cbn [app]. now rewrite strip_fence_miss.
  - rewrite <- app_assoc, !strip_fence_hit. apply IH.
    rewrite length_app. simpl. lia.
  - rewrite (strip_fence_miss _ _ H). cbn [app]. rewrite strip_fence_miss.
    + rewrite IH by (simpl; lia). reflexivity.
    + apply (seam_newline FENCE (c :: r) x NL_not_in_FENCE H).
Qed.

Lemma strip_fence_closing (t : jsstring) : strip_fence (t ++ FENCE) = strip_fence t.
Proof.
  induction t as [t IH] using by_length.
  destruct (fence_cases t) as [-> | [[r ->] | (c & r & -> & H)]].
  - reflexivity.
  - rewrite <- app_assoc, !strip_fence_hit. apply IH.
    rewrite length_app. simpl. lia.
  - destruct (starts_with FENCE ((c :: r) ++ FENCE)) eqn:E.
    + destruct (starts_with_seam _ _ _ E H) as (q & Hq & Hp & _).
      unfold FENCE in Hp.
      destruct r as [|c2 [|c3 r]]; cbn [app] in Hp.
      * injection Hp as <- _. reflexivity.
      * injection Hp as <- <- _. reflexivity.
      * injection Hp as <- <- <- Hp. destruct r; cbn [app] in Hp; congruence.
    + rewrite (strip_fence_miss _ _ H). cbn [app] in *.
      rewrite (strip_fence_miss _ _ E). now rewrite IH by (simpl; lia).
Qed.


(* ================================================================== *)
(** * Running computations *)

Section Running.
Context `{Externals}.

Lemma bind_resolved {A B} (m : M A) (f : A -> M B) st st' a :
  m st = (st', Resolved a) -> bind m f st = f a st'.
Proof. intros E. unfold bind. now rewrite E. Qed.

Lemma bind_rejected {A B} (m : M A) (f : A -> M B) st st' err :
  m st = (st', Rejected err) -> bind m f st = (st', Rejected err).
Proof. intros E. unfold bind. now rewrite E. Qed.

Lemma try_resolved {A} (m : M A) handler st st' a :
  m st = (st', Resolved a) -> try_catch m handler st = (st', Resolved a).
Proof. intros E. unfold try_catch. now rewrite E. Qed.

Lemma try_rejected {A} (m : M A) handler st st' err :
  m st = (st', Rejected err) -> try_catch m handler st = handler err st'.
Proof. intros E. unfold try_catch. now rewrite E. Qed.

(** ** connect *)

Lemma connect_live config st h :
  pool st = Some h -> connect config st = (st, Resolved tt).
Proof.
  intros E. unfold connect, try_catch, bind, get_pool. now rewrite E.
Qed.

Lemma connect_cases config st :
  pool st = None ->
  match pool_connect config (world st) with
  | (w, Resolved h) =>
      connect config st
      = ({| world := w; pool := Some h;
            trace := EvConnect config (Resolved h) :: trace st |}, Resolved tt)
  | (w, Rejected err) =>
      connect config st
      = ({| world := w; pool := None;
            trace := EvConnect config (Rejected err) :: trace st |},
         Rejected (JsError (lit "Failed to connect to database: "
                              ++ error_message err)))
  end.
Proof.
  intros E. unfold connect, try_catch, bind, get_pool, call, set_pool, throw.
  rewrite E. destruct (pool_connect config (world st)) as [w [h | err]];
    simpl; rewrite ?E; reflexivity.
Qed.

Lemma connect_resolved_pool config st st' :
  connect config st = (st', Resolved tt) -> exists h, pool st' = Some h.
Proof.
  destruct (pool st) as [h|] eqn:E.
  - rewrite (connect_live _ _ _ E). intros [= <-]. eauto.
  - pose proof (connect_cases config st E) as C.
    destruct (pool_connect config (world st)) as [w [h | err]];
      rewrite C; intros [= <-]. simpl. eauto.
Qed.

Lemma connect_rejected_pool config st st' err :
  connect config st = (st', Rejected err) -> pool st = None /\ pool st' = None.
Proof.
  destruct (pool st) as [h|] eqn:E.
  - rewrite (connect_live _ _ _ E). discriminate.
  - pose proof (connect_cases config st E) as C.
    destruct (pool_connect config (world st)) as [w [h | err']];
      rewrite C; intros [= <- _]. auto.
Qed.

(** ** executeQuery *)

Lemma executeQuery_live config T (q : Query T) st h :
  pool st = Some h ->
  executeQuery config q st = call (pool_query T h q) (fun _ => EvQuery h T q) st.
Proof.
  intros E. unfold executeQuery, bind, get_pool, ret. simpl. rewrite E. simpl.
  now rewrite E.
Qed.

Lemma executeQuery_connects config T (q : Query T) st st1 h :
  pool st = None -> connect config st = (st1, Resolved tt) -> pool st1 = Some h ->
  executeQuery config q st = call (pool_query T h q) (fun _ => EvQuery h T q) st1.
Proof.
  intros E C E1. unfold executeQuery, bind, get_pool. simpl. rewrite E, C. simpl.
  now rewrite E1.
Qed.

Lemma executeQuery_connect_fails config T (q : Query T) st st1 err :
  pool st = None -> connect config st = (st1, Rejected err) ->
  executeQuery config q st = (st1, Rejected err).
Proof.
  intros E C. unfold executeQuery, bind, get_pool. simpl. now rewrite E, C.
Qed.

Lemma call_pool {A} (f : World -> World * Outcome A) ev st :
  pool (fst (call f ev st)) = pool st.
Proof. unfold call. now destruct (f (world st)). Qed.

Lemma call_trace {A} (f : World -> World * Outcome A) ev st :
  trace (fst (call f ev st)) = ev (snd (f (world st))) :: trace st.
Proof. unfold call. now destruct (f (world st)). Qed.

(** A resolved [executeQuery] leaves a pool in place. *)
Lemma executeQuery_resolved_pool config T (q : Query T) st st' rows :
  executeQuery config q st = (st', Resolved rows) -> exists h, pool st' = Some h.
Proof.
  destruct (pool st) as [h|] eqn:E.
  - rewrite (executeQuery_live _ _ _ _ _ E). intros C.
    exists h. rewrite <- E, <- (call_pool (pool_query T h q) (fun _ => EvQuery h T q) st).
    now rewrite C.
  - destruct (connect config st) as [st1 [[] | err]] eqn:C.
    + destruct (connect_resolved_pool _ _ _ C) as [h E1].
      rewrite (executeQuery_connects _ _ _ _ _ _ E C E1). intros C'.
      exists h. rewrite <- E1, <- (call_pool (pool_query T h q) (fun _ => EvQuery h T q) st1).
      now rewrite C'.
    + rewrite (executeQuery_connect_fails _ _ _ _ _ _ E C). discriminate.
Qed.

End Running.

(* ================================================================== *)
(** * What every method preserves

    If [connect], a driver query, a model call and [console.log] each
    keep a preorder [R], so does every method built from them. *)

Section Frame.
Context `{Externals}.
Variable R : State -> State -> Prop.
Hypothesis R_refl : forall st, R st st.
Hypothesis R_trans : forall a b c, R a b -> R b c -> R a c.

Lemma keeps_ret {A} (a : A) : keeps R (ret a).
Proof. intros st. apply R_refl. Qed.

Lemma keeps_throw {A} err : keeps R (@throw _ A err).
Proof. intros st. apply R_refl. Qed.

Lemma keeps_get_pool : keeps R get_pool.
Proof. intros st. apply R_refl. Qed.

Lemma keeps_bind {A B} (m : M A) (f : A -> M B) :
  keeps R m -> (forall a, keeps R (f a)) -> keeps R (bind m f).
Proof.
  intros Hm Hf st. unfold bind. specialize (Hm st).
  destruct (m st) as [st1 [a | err]]; simpl in *; [|assumption].
  eapply R_trans; [exact Hm | apply Hf].
Qed.

Lemma keeps_try_catch {A} (m : M A) handler :
  keeps R m -> (forall err, keeps R (handler err)) -> keeps R (try_catch m handler).
Proof.
  intros Hm Hh st. unfold try_catch. specialize (Hm st).
  destruct (m st) as [st1 [a | err]]; simpl in *; [assumption|].
  eapply R_trans; [exact Hm | apply Hh].
Qed.

Variable config : sql_config.
Hypothesis keeps_connect : keeps R (connect config).
Hypothesis keeps_query :
  forall T h (q : Query T), keeps R (call (pool_query T h q) (fun _ => EvQuery h T q)).

Lemma keeps_executeQuery T (q : Query T) : keeps R (executeQuery config q).
Proof.
  unfold executeQuery.
  apply keeps_bind; [apply keeps_get_pool | intros p].
  apply keeps_bind.
  - destruct p; [apply keeps_ret | apply keeps_connect].
  - intros _. apply keeps_bind; [apply keeps_get_pool | intros [h|]].
    + apply keeps_query.
    + apply keeps_throw.
Qed.

Lemma keeps_table_section schema table : keeps R (table_section config schema table).
Proof.
  unfold table_section.
  repeat (apply keeps_bind; [apply keeps_executeQuery | intros ?]).
  apply keeps_ret.
Qed.

Lemma keeps_for_each_table tables schema :
  keeps R (for_each_table config tables schema).
Proof.
  revert schema. induction tables as [|t ts IH]; intros schema; simpl.
  - apply keeps_ret.
  - apply keeps_bind; [apply keeps_table_section | apply IH].
Qed.

Lemma keeps_inspectSchema : keeps R (inspectSchema config).
Proof.
  unfold inspectSchema. apply keeps_try_catch; [|intros; apply keeps_throw].
  apply keeps_bind; [apply keeps_connect | intros _].
  apply keeps_bind; [apply keeps_get_pool | intros p].
  apply keeps_bind; [destruct p; [apply keeps_ret | apply keeps_throw] | intros _].
  apply keeps_bind; [apply keeps_executeQuery | intros tables].
  apply keeps_for_each_table.
Qed.

Variable aiConfig : AIClientConfig.
Hypothesis keeps_chat :
  forall request, keeps R (call (chat_create request) (fun _ => EvChat request)).
Hypothesis keeps_console_log : forall results, keeps R (console_log results).

Lemma keeps_first_content response : keeps R (first_content response).
Proof.
  unfold first_content. destruct (choices response); [apply keeps_throw | apply keeps_ret].
Qed.

Lemma keeps_generateSQLQuery prompt schema :
  keeps R (generateSQLQuery aiConfig prompt schema).
Proof.
  unfold generateSQLQuery.
  apply keeps_bind; [apply keeps_chat | intros response].
  apply keeps_bind; [apply keeps_first_content | intros; apply keeps_ret].
Qed.

Lemma keeps_formatResponse query results :
  keeps R (formatResponse aiConfig query results).
Proof.
  unfold formatResponse.
  apply keeps_bind; [apply keeps_chat | intros response].
  apply keeps_bind; [apply keeps_first_content | intros; apply keeps_ret].
Qed.

Lemma keeps_analyzeAndQuery prompt :
  keeps R (analyzeAndQuery config aiConfig prompt).
Proof.
  unfold analyzeAndQuery. apply keeps_try_catch; [|intros; apply keeps_throw].
  apply keeps_bind; [apply keeps_inspectSchema | intros schema].
  apply keeps_bind; [apply keeps_generateSQLQuery | intros query].
  apply keeps_bind; [apply keeps_executeQuery | intros results].
  apply keeps_bind; [apply keeps_console_log | intros _].
  apply keeps_formatResponse.
Qed.

End Frame.

(* ================================================================== *)
(** * Rendering *)

Lemma jsstring_eqb_eq a b : jsstring_eqb a b = true <-> a = b.
Proof.
  unfold jsstring_eqb. destruct (list_eq_dec N.eq_dec a b); split; congruence.
Qed.

Lemma jsstring_eqb_refl a : jsstring_eqb a a = true.
Proof. now apply jsstring_eqb_eq. Qed.

Lemma jsstring_eqb_neq a b : a <> b -> jsstring_eqb a b = false.
Proof.
  intros N. destruct (jsstring_eqb a b) eqn:E; [|reflexivity].
  apply jsstring_eqb_eq in E. contradiction.
Qed.

Lemma jsstring_eqb_sym a b : jsstring_eqb a b = jsstring_eqb b a.
Proof.
  unfold jsstring_eqb.
  destruct (list_eq_dec N.eq_dec a b), (list_eq_dec N.eq_dec b a); congruence.
Qed.

Lemma fold_left_same {A B} (f g : A -> B -> A) l a :
  (forall a b, f a b = g a b) -> fold_left f l a = fold_left g l a.
Proof.
  intros E. revert a. induction l as [|b l IH]; intros a; simpl; [reflexivity|].
  now rewrite E, IH.
Qed.

(** A loop that appends one line per row. *)
Lemma fold_left_lines {A} (line : A -> jsstring) rows schema :
  fold_left (fun schema x => schema ++ line x) rows schema
  = schema ++ concat (map line rows).
Proof.
  revert schema. induction rows as [|x rows IH]; intros schema; simpl.
  - now rewrite app_nil_r.
  - now rewrite IH, app_assoc.
Qed.

Lemma nonempty_length {A} (l : list A) :
  (0 <? List.length l) = match l with [] => false | _ :: _ => true end.
Proof. now destruct l. Qed.

Lemma add_header_eq schema table :
  add_header schema table
  = schema ++ lit "Table: " ++ TABLE_NAME table ++ NL :: description_block table
      ++ SEPARATOR.
Proof.
  unfold add_header, description_block, truthy, spliced.
  destruct (TABLE_DESCRIPTION table) as [[|c text]|];
    repeat (rewrite <- ?app_assoc; simpl); reflexivity.
Qed.

Lemma add_column_eq schema column :
  add_column schema column = schema ++ column_line column.
Proof.
  unfold add_column, column_line, truthy, spliced.
  rewrite nonempty_length.
  destruct (column_properties column) as [|p ps];
    destruct (COLUMN_DESCRIPTION column) as [[|c text]|];
    repeat (rewrite <- ?app_assoc; simpl); reflexivity.
Qed.

Lemma add_columns_eq schema columns :
  add_columns schema columns = schema ++ columns_block columns.
Proof.
  unfold add_columns, columns_block.
  rewrite (fold_left_same _ (fun schema x => schema ++ column_line x)).
  - rewrite fold_left_lines. now rewrite <- !app_assoc.
  - intros. apply add_column_eq.
Qed.

Lemma add_primary_keys_eq schema primaryKeys :
  add_primary_keys schema primaryKeys = schema ++ primary_keys_block primaryKeys.
Proof.
  unfold add_primary_keys, primary_keys_block. rewrite nonempty_length.
  destruct primaryKeys as [|pk pks]; [now rewrite app_nil_r|].
  rewrite (fold_left_lines primary_key_line).
  now rewrite <- !app_assoc.
Qed.

Lemma add_foreign_keys_eq schema foreignKeys :
  add_foreign_keys schema foreignKeys = schema ++ foreign_keys_block foreignKeys.
Proof.
  unfold add_foreign_keys, foreign_keys_block. rewrite nonempty_length.
  destruct foreignKeys as [|fk fks]; [now rewrite app_nil_r|].
  rewrite (fold_left_lines foreign_key_line).
  now rewrite <- !app_assoc.
Qed.

(** ** Grouping the index rows *)

Lemma first_seen_In n names : In n (first_seen names) <-> In n names.
Proof.
  induction names as [|x r IH]; simpl; [tauto|].
  rewrite filter_In, IH, negb_true_iff. split.
  - tauto.
  - intros [-> | Hn]; [now left|].
    destruct (list_eq_dec N.eq_dec x n) as [-> | Hx]; [now left | right].
    split; [assumption | now apply jsstring_eqb_neq].
Qed.

Lemma first_seen_NoDup names : NoDup (first_seen names).
Proof.
  induction names as [|x r IH]; simpl; constructor.
  - rewrite filter_In, jsstring_eqb_refl. simpl. intros [_ D]. discriminate.
  - now apply NoDup_filter.
Qed.

Lemma first_seen_snoc names n :
  first_seen (names ++ [n])
  = first_seen names
      ++ (if in_dec (list_eq_dec N.eq_dec) n names then [] else [n]).
Proof.
  induction names as [|x r IH]; simpl; [reflexivity|].
  rewrite IH, filter_app. f_equal. f_equal.
  destruct (in_dec (list_eq_dec N.eq_dec) n r) as [Hr | Hr].
  - destruct (list_eq_dec N.eq_dec x n); reflexivity.
  - simpl. destruct (list_eq_dec N.eq_dec x n) as [-> | Hx].
    + now rewrite jsstring_eqb_refl.
    + rewrite (jsstring_eqb_neq _ _ Hx). simpl.
      destruct (in_dec (list_eq_dec N.eq_dec) n r); [contradiction | reflexivity].
Qed.

Lemma rows_of_snoc name indexes r :
  rows_of name (indexes ++ [r])
  = rows_of name indexes ++ (if jsstring_eqb (INDEX_NAME r) name then [r] else []).
Proof. unfold rows_of. rewrite filter_app. reflexivity. Qed.

Lemma rows_of_absent name indexes :
  ~ In name (map INDEX_NAME indexes) -> rows_of name indexes = [].
Proof.
  unfold rows_of. induction indexes as [|x r IH]; simpl; [reflexivity|].
  intros N. rewrite jsstring_eqb_neq by tauto. apply IH. tauto.
Qed.

Lemma rows_of_present name indexes :
  In name (map INDEX_NAME indexes) -> rows_of name indexes <> [].
Proof.
  unfold rows_of. induction indexes as [|x r IH]; simpl; [tauto|].
  intros [<- | Hn].
  - now rewrite jsstring_eqb_refl.
  - destruct (jsstring_eqb (INDEX_NAME x) name); [discriminate | auto].
Qed.

Lemma map_has_keys (e : jsstring -> IndexEntry) n keys :
  map_has n (map (fun k => (k, e k)) keys) = true <-> In n keys.
Proof.
  induction keys as [|k keys IH]; simpl; [split; [discriminate | tauto]|].
  rewrite orb_true_iff, IH, jsstring_eqb_eq. tauto.
Qed.

(** After [if (!m.has(k)) m.set(k, v)] the key is there, so the
    [m.get(k)!] of the source is defined. *)
Lemma map_has_set k v m : map_has k (map_set k v m) = true.
Proof.
  induction m as [|[k' v'] m IH]; simpl.
  - now rewrite jsstring_eqb_refl.
  - destruct (jsstring_eqb k' k) eqn:E; simpl.
    + now rewrite jsstring_eqb_refl.
    + now rewrite E, IH.
Qed.

Lemma map_set_new (e : jsstring -> IndexEntry) n v keys :
  ~ In n keys ->
  map_set n v (map (fun k => (k, e k)) keys)
  = map (fun k => (k, e k)) keys ++ [(n, v)].
Proof.
  induction keys as [|k keys IH]; simpl; [reflexivity|]. intros N.
  rewrite jsstring_eqb_neq by tauto. now rewrite IH by tauto.
Qed.

Lemma map_push_column_absent n c (m : IndexMap) :
  ~ In n (map fst m) -> map_push_column n c m = m.
Proof.
  induction m as [|[k v] m IH]; simpl; [reflexivity|]. intros N.
  rewrite jsstring_eqb_neq by tauto. now rewrite IH by tauto.
Qed.

Lemma map_push_column_app n c (m m' : IndexMap) :
  ~ In n (map fst m) ->
  map_push_column n c (m ++ m') = m ++ map_push_column n c m'.
Proof.
  induction m as [|[k v] m IH]; simpl; [reflexivity|]. intros N.
  rewrite jsstring_eqb_neq by tauto. now rewrite IH by tauto.
Qed.

Lemma map_fst_keys (e : jsstring -> IndexEntry) keys :
  map fst (map (fun k => (k, e k)) keys) = keys.
Proof. rewrite map_map. simpl. apply map_id. Qed.

Lemma index_entry_other indexes r name :
  INDEX_NAME r <> name ->
  index_entry (indexes ++ [r]) name = index_entry indexes name.
Proof.
  intros N. unfold index_entry, first_flag.
  rewrite rows_of_snoc, (jsstring_eqb_neq _ _ N), app_nil_r. reflexivity.
Qed.

Lemma grouped_other indexes r keys :
  ~ In (INDEX_NAME r) keys ->
  map (fun name => (name, index_entry (indexes ++ [r]) name)) keys
  = map (fun name => (name, index_entry indexes name)) keys.
Proof.
  intros N. apply map_ext_in. intros k Hk.
  rewrite index_entry_other; [reflexivity|]. intros E. apply N. now rewrite E.
Qed.

(** One more row of an index already met: its column goes last. *)
Lemma push_known indexes r keys :
  NoDup keys -> In (INDEX_NAME r) keys -> In (INDEX_NAME r) (map INDEX_NAME indexes) ->
  map_push_column (INDEX_NAME r) (ix_COLUMN_NAME r)
    (map (fun name => (name, index_entry indexes name)) keys)
  = map (fun name => (name, index_entry (indexes ++ [r]) name)) keys.
Proof.
  intros ND Hk Hn. induction keys as [|k keys IH]; [contradiction|].
  inversion ND as [|? ? Hnk ND']; subst. simpl.
  destruct (list_eq_dec N.eq_dec k (INDEX_NAME r)) as [-> | Hx].
  - rewrite jsstring_eqb_refl, (grouped_other _ _ _ Hnk). f_equal. f_equal.
    unfold index_entry, first_flag. simpl.
    rewrite rows_of_snoc, jsstring_eqb_refl, map_app. f_equal.
    pose proof (rows_of_present _ _ Hn) as P.
    destruct (rows_of (INDEX_NAME r) indexes); [contradiction | reflexivity].
  - rewrite (jsstring_eqb_neq _ _ Hx). f_equal.
    + rewrite index_entry_other; [reflexivity | congruence].
    + apply IH; [assumption|]. destruct Hk; [contradiction | assumption].
Qed.

Lemma collect_index_grouped indexes r :
  collect_index (grouped indexes) r = grouped (indexes ++ [r]).
Proof.
  unfold collect_index, grouped.
  rewrite map_app. change (map INDEX_NAME [r]) with [INDEX_NAME r].
  rewrite first_seen_snoc.
  set (keys := first_seen (map INDEX_NAME indexes)).
  destruct (in_dec (list_eq_dec N.eq_dec) (INDEX_NAME r) (map INDEX_NAME indexes))
    as [Hn | Hn].
  - rewrite app_nil_r.
    assert (Hk : In (INDEX_NAME r) keys) by now apply first_seen_In.
    rewrite (proj2 (map_has_keys _ _ _) Hk). simpl.
    apply push_known; [apply first_seen_NoDup | assumption | assumption].
  - assert (Hk : ~ In (INDEX_NAME r) keys)
      by (intros Hk; apply Hn; now apply first_seen_In).
    destruct (map_has (INDEX_NAME r) (map (fun name => (name, index_entry indexes name)) keys))
      eqn:E; [apply map_has_keys in E; contradiction|]. simpl.
    rewrite (map_set_new _ _ _ _ Hk), map_push_column_app
      by now rewrite map_fst_keys.
    rewrite map_app, (grouped_other _ _ _ Hk). f_equal. simpl.
    rewrite jsstring_eqb_refl. f_equal. f_equal.
    unfold index_entry, first_flag.
    rewrite rows_of_snoc, jsstring_eqb_refl, (rows_of_absent _ _ Hn). reflexivity.
Qed.

Lemma collect_all indexes : fold_left collect_index indexes [] = grouped indexes.
Proof.
  induction indexes as [|r indexes IH] using rev_ind; [reflexivity|].
  now rewrite fold_left_app, IH; simpl; rewrite collect_index_grouped.
Qed.

Lemma add_indexes_eq schema indexes :
  add_indexes schema indexes = schema ++ indexes_block first_flag indexes.
Proof.
  unfold add_indexes, indexes_block. rewrite nonempty_length.
  destruct indexes as [|r indexes]; [now rewrite app_nil_r|].
  rewrite collect_all. unfold grouped.
  rewrite (fold_left_same _
             (fun schema entry =>
                schema ++ index_line (fst entry) (isUnique (snd entry))
                            (columns (snd entry)))).
  - rewrite fold_left_lines, map_map. simpl.
    now rewrite <- !app_assoc.
  - intros schema' [name value]. unfold add_index_line, index_line. reflexivity.
Qed.

(* ================================================================== *)
(** * The relations that the methods keep *)

Section Kept.
Context `{Externals}.

Lemma only_events_refl P st : only_events P st st.
Proof. exists []. auto. Qed.

Lemma only_events_trans P a b c :
  only_events P a b -> only_events P b c -> only_events P a c.
Proof.
  intros (n1 & E1 & F1) (n2 & E2 & F2). exists (n2 ++ n1). split.
  - now rewrite E2, E1, app_assoc.
  - apply Forall_app. auto.
Qed.

Lemma only_events_call {A} P (f : World -> World * Outcome A) ev :
  (forall r, P (ev r)) -> keeps (only_events P) (call f ev).
Proof.
  intros HP st. exists [ev (snd (f (world st)))]. split.
  - apply call_trace.
  - constructor; auto.
Qed.

Lemma only_events_connect P config :
  (forall r, P (EvConnect config r)) -> keeps (only_events P) (connect config).
Proof.
  intros HP st. destruct (pool st) as [h|] eqn:E.
  - rewrite (connect_live _ _ _ E). apply only_events_refl.
  - pose proof (connect_cases config st E) as C.
    destruct (pool_connect config (world st)) as [w [h | err]]; rewrite C;
      eexists [_]; simpl; split; try reflexivity; constructor; auto.
Qed.

Lemma only_events_console_log P results :
  P (EvConsoleLog results) -> keeps (only_events P) (console_log results).
Proof.
  intros HP st. exists [EvConsoleLog results]. split; [reflexivity|]. constructor; auto.
Qed.

Lemma pool_kept_refl st : pool_kept st st.
Proof. intros h E. exact E. Qed.

Lemma pool_kept_trans a b c : pool_kept a b -> pool_kept b c -> pool_kept a c.
Proof. intros H1 H2 h E. auto. Qed.

Lemma pool_kept_call {A} (f : World -> World * Outcome A) ev :
  keeps pool_kept (call f ev).
Proof. intros st h E. now rewrite call_pool. Qed.

Lemma pool_kept_connect config : keeps pool_kept (connect config).
Proof. intros st h E. now rewrite (connect_live _ _ _ E). Qed.

Lemma pool_kept_console_log results : keeps pool_kept (console_log results).
Proof. intros st h E. exact E. Qed.

Lemma inv_kept_refl st : inv_kept st st.
Proof. intros I. exact I. Qed.

Lemma inv_kept_trans a b c : inv_kept a b -> inv_kept b c -> inv_kept a c.
Proof. unfold inv_kept. auto. Qed.

Lemma inv_kept_connect config : keeps inv_kept (connect config).
Proof.
  intros st I. destruct (pool st) as [h|] eqn:E.
  - now rewrite (connect_live _ _ _ E).
  - pose proof (connect_cases config st E) as C. unfold handle_inv in *.
    rewrite E in I.
    destruct (pool_connect config (world st)) as [w [h | err]]; rewrite C; simpl; lia.
Qed.

Lemma inv_kept_query T h (q : Query T) :
  keeps inv_kept (call (pool_query T h q) (fun _ => EvQuery h T q)).
Proof.
  intros st I. unfold handle_inv in *. rewrite call_pool, call_trace. exact I.
Qed.

Lemma inv_kept_chat request :
  keeps inv_kept (call (chat_create request) (fun _ => EvChat request)).
Proof.
  intros st I. unfold handle_inv in *. rewrite call_pool, call_trace. exact I.
Qed.

Lemma inv_kept_console_log results : keeps inv_kept (console_log results).
Proof. intros st I. exact I. Qed.

Lemma inv_kept_disconnect : keeps inv_kept disconnect.
Proof.
  intros st I. unfold disconnect, bind, get_pool, call, set_pool, handle_inv in *.
  simpl. destruct (pool st) as [h|] eqn:E; [|simpl; now rewrite E].
  destruct (pool_close h (world st)) as [w [[] | err]]; simpl; rewrite ?E; lia.
Qed.

Lemma closed_app new tr :
  Forall (fun ev => ~ is_close ev) new -> closed (new ++ tr) = closed tr.
Proof.
  induction 1 as [|ev new Hev _ IH]; [reflexivity|]. simpl.
  destruct ev; simpl in *; try exact IH. contradiction.
Qed.

Lemma run_calls_inv config calls st :
  handle_inv st -> handle_inv (run_calls config calls st).
Proof.
  revert st. induction calls as [|c calls IH]; intros st I; [exact I|].
  simpl. apply IH. destruct c; simpl.
  - now apply inv_kept_connect.
  - now apply inv_kept_disconnect.
  - refine (keeps_executeQuery inv_kept inv_kept_refl inv_kept_trans config
              (inv_kept_connect config) inv_kept_query T q st I).
  - refine (keeps_inspectSchema inv_kept inv_kept_refl inv_kept_trans config
              (inv_kept_connect config) inv_kept_query st I).
Qed.

Lemma chat_request_inj a b : EvChat a = EvChat b -> a = b.
Proof.
  intros E.
  apply (f_equal (fun ev => match ev with EvChat r => r | _ => a end)) in E.
  exact E.
Qed.

Lemma generate_not_format aiConfig prompt schema ai' query results_json :
  generate_request aiConfig prompt schema <> format_request ai' query results_json.
Proof.
  intros E.
  apply (f_equal (fun request =>
                    match messages request with
                    | m :: _ => hd 0%N (content m)
                    | [] => 0%N
                    end)) in E.
  cbv in E. discriminate.
Qed.

Lemma generateSQLQuery_state aiConfig prompt schema st :
  trace (fst (generateSQLQuery aiConfig prompt schema st))
    = EvChat (generate_request aiConfig prompt schema) :: trace st
  /\ pool (fst (generateSQLQuery aiConfig prompt schema st)) = pool st.
Proof.
  unfold generateSQLQuery, bind, call, first_content, ret, throw.
  destruct (chat_create _ (world st)) as [w [response | err]]; simpl; auto.
  destruct (choices response); simpl; auto.
Qed.

End Kept.

(* ================================================================== *)
(** * The pipeline: error propagation and the connection *)

Section Pipeline.
Context `{Externals}.

(** C1: when INTROSPECT and GENERATE succeed and the database call of
    EXECUTE fails with an error of message [m], [analyzeAndQuery] rejects
    with one error, ["Failed to analyze and query: " ++ m], and none of
    the calls it made is a request of [formatResponse]. *)
Theorem analyzeAndQuery_execute_failure
    dbConfig aiConfig prompt st schema st1 query st2 h w m :
  inspectSchema dbConfig st = (st1, Resolved schema) ->
  generateSQLQuery aiConfig prompt schema st1 = (st2, Resolved query) ->
  pool st2 = Some h ->
  pool_query _ h (SqlText query) (world st2) = (w, Rejected (JsError m)) ->
  exists st',
    analyzeAndQuery dbConfig aiConfig prompt st
      = (st', Rejected (JsError (lit "Failed to analyze and query: " ++ m)))
    /\ only_events (fun ev => ~ is_format_call aiConfig ev) st st'.
Proof.
  intros H1 H2 Hp Hq.
  assert (Hx : executeQuery dbConfig (SqlText query) st2
               = ({| world := w; pool := pool st2;
                     trace := EvQuery h _ (SqlText query) :: trace st2 |},
                  Rejected (JsError m))).
  { rewrite (executeQuery_live _ _ _ _ _ Hp). unfold call. now rewrite Hq. }
  exists {| world := w; pool := pool st2;
            trace := EvQuery h _ (SqlText query) :: trace st2 |}.
  split.
  - unfold analyzeAndQuery.
    rewrite (try_rejected _ _ st
               {| world := w; pool := pool st2;
                  trace := EvQuery h _ (SqlText query) :: trace st2 |}
               (JsError m)); [reflexivity|].
    rewrite (bind_resolved _ _ _ _ _ H1), (bind_resolved _ _ _ _ _ H2).
    apply bind_rejected. exact Hx.
  - set (P := fun ev => ~ is_format_call aiConfig ev).
    assert (K : only_events P st st1).
    { pose proof (keeps_inspectSchema (only_events P) (only_events_refl P)
                    (only_events_trans P) dbConfig) as K.
      replace st1 with (fst (inspectSchema dbConfig st)) by now rewrite H1.
      apply K.
      - apply only_events_connect. intros r (q' & j & D). discriminate.
      - intros T h' q'. apply only_events_call. intros r (q'' & j & D). discriminate. }
    destruct K as (new & E & F).
    destruct (generateSQLQuery_state aiConfig prompt schema st1) as [T2 _].
    rewrite H2 in T2. simpl in T2.
    exists (EvQuery h _ (SqlText query)
              :: EvChat (generate_request aiConfig prompt schema) :: new).
    split.
    + simpl. now rewrite T2, E.
    + constructor; [intros (q' & j & D); discriminate|].
      constructor; [|exact F].
      intros (q' & j & D). apply chat_request_inj in D.
      exact (generate_not_format _ _ _ _ _ _ D).
Qed.

(** C6: if the first choice of the completion has no content ([null] or
    the empty string), [formatResponse] resolves with the empty string;
    if it has content, with that text as it is. *)
Theorem formatResponse_content aiConfig query results st w response choice rest :
  chat_create (format_request aiConfig query (JSON_stringify results)) (world st)
    = (w, Resolved response) ->
  choices response = choice :: rest ->
  exists st',
    ((message_content (message choice) = None
      \/ message_content (message choice) = Some []) ->
     formatResponse aiConfig query results st = (st', Resolved []))
    /\ (forall text, message_content (message choice) = Some text ->
        formatResponse aiConfig query results st = (st', Resolved text)).
Proof.
  intros Hc Hr.
  exists {| world := w; pool := pool st;
            trace := EvChat (format_request aiConfig query (JSON_stringify results))
                       :: trace st |}.
  assert (E : formatResponse aiConfig query results st
              = ({| world := w; pool := pool st;
                    trace := EvChat (format_request aiConfig query (JSON_stringify results))
                               :: trace st |},
                 Resolved (or_empty (message_content (message choice))))).
  { unfold formatResponse, bind, call, first_content, ret. rewrite Hc. simpl.
    now rewrite Hr. }
  rewrite E. split.
  - intros [-> | ->]; reflexivity.
  - intros text ->. now destruct text.
Qed.

(** C7: with a pool in place [connect] changes nothing, neither the pool
    nor the world nor the trace, so no connection is opened; and after
    any sequence of calls on a fresh inspector, each awaited before the
    next, the connections opened and not closed are at most one. *)
Theorem connect_idempotent config :
  (forall st h, pool st = Some h -> connect config st = (st, Resolved tt))
  /\ (forall calls w,
        closed (trace (run_calls config calls (fresh w)))
          <= opened (trace (run_calls config calls (fresh w)))
          <= closed (trace (run_calls config calls (fresh w))) + 1).
Proof.
  split; [intros st h; apply connect_live|].
  intros calls w.
  assert (I : handle_inv (run_calls config calls (fresh w)))
    by (apply run_calls_inv; reflexivity).
  unfold handle_inv in I.
  destruct (pool (run_calls config calls (fresh w))); lia.
Qed.

(** C8: [analyzeAndQuery] closes nothing, on any path: the calls it makes
    contain no [close], a pool held before is held after, and a handle it
    opened is the one left in [this.pool]; closing is what [disconnect]
    does, on the pool held. *)
Theorem analyzeAndQuery_keeps_connection dbConfig aiConfig prompt st :
  only_events (fun ev => ~ is_close ev) st
    (fst (analyzeAndQuery dbConfig aiConfig prompt st))
  /\ pool_kept st (fst (analyzeAndQuery dbConfig aiConfig prompt st))
  /\ inv_kept st (fst (analyzeAndQuery dbConfig aiConfig prompt st))
  /\ (forall h, pool st = Some h ->
        trace (fst (analyzer_disconnect st))
          = EvClose h (snd (pool_close h (world st))) :: trace st).
Proof.
  repeat split.
  - apply (keeps_analyzeAndQuery (only_events (fun ev => ~ is_close ev))
             (only_events_refl _) (only_events_trans _)).
    + apply only_events_connect. intros r. exact (fun F => F).
    + intros. apply only_events_call. intros r. exact (fun F => F).
    + intros. apply only_events_call. intros r. exact (fun F => F).
    + intros. apply only_events_console_log. exact (fun F => F).
  - apply (keeps_analyzeAndQuery pool_kept pool_kept_refl pool_kept_trans).
    + apply pool_kept_connect.
    + intros. apply pool_kept_call.
    + intros. apply pool_kept_call.
    + apply pool_kept_console_log.
  - apply (keeps_analyzeAndQuery inv_kept inv_kept_refl inv_kept_trans).
    + apply inv_kept_connect.
    + apply inv_kept_query.
    + apply inv_kept_chat.
    + apply inv_kept_console_log.
  - intros h E. unfold analyzer_disconnect, disconnect, bind, get_pool, call, set_pool.
    simpl. rewrite E. destruct (pool_close h (world st)) as [w [[] | err]]; reflexivity.
Qed.

(** C10: [executeQuery] reaches the driver only through a pool that is
    there.  With a pool it dispatches on it.  Without one it runs
    [connect]: if that resolves, a pool is in place and the query goes to
    it; if that rejects, [executeQuery] rejects with the same error.  A
    resolved [disconnect] leaves no pool, which is the second case. *)
Theorem executeQuery_pool_present config T (q : Query T) st :
  (forall h, pool st = Some h ->
     executeQuery config q st
       = call (pool_query T h q) (fun _ => EvQuery h T q) st)
  /\ (pool st = None ->
      forall st1, connect config st = (st1, Resolved tt) ->
      exists h, pool st1 = Some h
        /\ executeQuery config q st
           = call (pool_query T h q) (fun _ => EvQuery h T q) st1)
  /\ (pool st = None ->
      forall st1 err, connect config st = (st1, Rejected err) ->
      executeQuery config q st = (st1, Rejected err))
  /\ (forall st0, disconnect st0 = (st, Resolved tt) -> pool st = None).
Proof.
  repeat split.
  - intros h. apply executeQuery_live.
  - intros E st1 C. destruct (connect_resolved_pool _ _ _ C) as [h E1].
    exists h. split; [exact E1|]. now apply executeQuery_connects.
  - intros E st1 err. now apply executeQuery_connect_fails.
  - intros st0. unfold disconnect, bind, get_pool, call, set_pool, ret. simpl.
    destruct (pool st0) as [h|] eqn:E.
    + destruct (pool_close h (world st0)) as [w [[] | err]]; intros [= <-];
        reflexivity.
    + intros [= <-]. exact E.
Qed.

End Pipeline.

(* ================================================================== *)
(** * The schema document *)

Lemma first_flag_all_flags indexes name :
  flags_agree indexes -> In name (map INDEX_NAME indexes) ->
  first_flag name indexes = all_flags name indexes.
Proof.
  intros A Hn. unfold first_flag, all_flags.
  pose proof (rows_of_present _ _ Hn) as P.
  assert (Q : forall r, In r (rows_of name indexes) ->
                        In r indexes /\ INDEX_NAME r = name).
  { intros r Hr. unfold rows_of in Hr. apply filter_In in Hr.
    now rewrite jsstring_eqb_eq in Hr. }
  destruct (rows_of name indexes) as [|r rest]; [contradiction|].
  destruct (Q r (or_introl eq_refl)) as [Hr Er].
  destruct (is_unique r) eqn:U; simpl; rewrite U; simpl; [|reflexivity].
  symmetry. apply forallb_forall. intros x Hx.
  destruct (Q x (or_intror Hx)) as [Hx' Ex].
  rewrite <- U. apply A; congruence.
Qed.

Lemma indexes_block_flags indexes :
  flags_agree indexes ->
  indexes_block first_flag indexes = indexes_block all_flags indexes.
Proof.
  intros A. unfold indexes_block. destruct indexes as [|r indexes]; [reflexivity|].
  f_equal. f_equal. f_equal. f_equal. apply map_ext_in. intros name Hn.
  rewrite (first_flag_all_flags _ _ A); [reflexivity|].
  now apply first_seen_In.
Qed.

(** C2: for index rows as the catalog returns them, where the rows of
    one index name carry the flag of that index, the Indexes block that
    [inspectSchema] appends has one line per distinct index name, in
    first-seen order, with the columns of that index in catalog row
    order, and the suffix [(UNIQUE)] is on the line iff every
    contributing row is flagged unique. *)
Theorem indexes_block_rendered schema indexes :
  flags_agree indexes ->
  add_indexes schema indexes = schema ++ indexes_block all_flags indexes
  /\ NoDup (first_seen (map INDEX_NAME indexes))
  /\ (forall name, In name (first_seen (map INDEX_NAME indexes))
                   <-> In name (map INDEX_NAME indexes)).
Proof.
  intros A.
  split; [rewrite add_indexes_eq; now rewrite indexes_block_flags|].
  split; [apply first_seen_NoDup|].
  intros name. apply first_seen_In.
Qed.

Lemma indexes_block_rendered_witness :
  add_indexes [] orders_indexes
  = NL :: lit "Indexes:"
      ++ NL :: lit "- IX_Orders_Customer: CustomerId, Date"
      ++ NL :: lit "- UQ_Orders_Number (UNIQUE): Number" ++ [NL].
Proof.
  assert (A : flags_agree orders_indexes).
  { intros r1 r2 H1 H2 E. simpl in H1, H2.
    destruct H1 as [<- | [<- | [<- | []]]];
      destruct H2 as [<- | [<- | [<- | []]]];
      try reflexivity; vm_compute in E; discriminate E. }
  rewrite (proj1 (indexes_block_rendered [] orders_indexes A)).
  reflexivity.
Defined.

Section Document.
Context `{Externals}.

(** C4: a table section that [inspectSchema] renders is the header line,
    the separator and the Columns block (also for no columns), with the
    Description line, the Primary Keys, Foreign Keys and Indexes blocks
    in between and after, each of them there iff the catalog gave a
    non-empty description, resp. at least one row, and absent as a
    whole otherwise. *)
Theorem table_section_blocks config schema table st st' out :
  table_section config schema table st = (st', Resolved out) ->
  exists columns primaryKeys foreignKeys indexes st1 st2 st3,
    executeQuery config (SelectColumns (TABLE_NAME table)) st
      = (st1, Resolved columns)
    /\ executeQuery config (SelectPrimaryKeys (TABLE_NAME table)) st1
      = (st2, Resolved primaryKeys)
    /\ executeQuery config (SelectForeignKeys (TABLE_NAME table)) st2
      = (st3, Resolved foreignKeys)
    /\ executeQuery config (SelectIndexes (TABLE_NAME table)) st3
      = (st', Resolved indexes)
    /\ out = schema ++ lit "Table: " ++ TABLE_NAME table ++ NL
               :: description_block table
               ++ SEPARATOR
               ++ lit "Columns:" ++ NL :: concat (map column_line columns)
               ++ primary_keys_block primaryKeys
               ++ foreign_keys_block foreignKeys
               ++ indexes_block first_flag indexes
               ++ [NL; NL]
    /\ (description_block table = []
        <-> TABLE_DESCRIPTION table = None \/ TABLE_DESCRIPTION table = Some [])
    /\ (forall text, TABLE_DESCRIPTION table = Some text -> text <> [] ->
        description_block table = lit "Description: " ++ text ++ [NL])
    /\ (primary_keys_block primaryKeys = [] <-> primaryKeys = [])
    /\ (primaryKeys <> [] ->
        primary_keys_block primaryKeys
          = NL :: lit "Primary Keys:" ++ NL
               :: concat (map primary_key_line primaryKeys))
    /\ (foreign_keys_block foreignKeys = [] <-> foreignKeys = [])
    /\ (foreignKeys <> [] ->
        foreign_keys_block foreignKeys
          = NL :: lit "Foreign Keys:" ++ NL
               :: concat (map foreign_key_line foreignKeys))
    /\ (indexes_block first_flag indexes = [] <-> indexes = [])
    /\ (indexes <> [] ->
        exists lines, lines <> []
          /\ indexes_block first_flag indexes
             = NL :: lit "Indexes:" ++ NL :: concat lines).
Proof.
  unfold table_section, bind. intros R.
  destruct (executeQuery config (SelectColumns (TABLE_NAME table)) st)
    as [st1 [columns | ?]] eqn:E1; [|discriminate].
  destruct (executeQuery config (SelectPrimaryKeys (TABLE_NAME table)) st1)
    as [st2 [primaryKeys | ?]] eqn:E2; [|discriminate].
  destruct (executeQuery config (SelectForeignKeys (TABLE_NAME table)) st2)
    as [st3 [foreignKeys | ?]] eqn:E3; [|discriminate].
  destruct (executeQuery config (SelectIndexes (TABLE_NAME table)) st3)
    as [st4 [indexes | ?]] eqn:E4; [|discriminate].
  injection R as <- <-.
  exists columns, primaryKeys, foreignKeys, indexes, st1, st2, st3.
  split; [reflexivity|]. split; [exact E2|]. split; [exact E3|].
  split; [exact E4|].
  split.
  { cbv zeta.
    rewrite add_indexes_eq, add_foreign_keys_eq, add_primary_keys_eq,
      add_columns_eq, add_header_eq.
    unfold columns_block. repeat (rewrite <- ?app_assoc; simpl). reflexivity. }
  unfold description_block.
  split.
  { destruct (TABLE_DESCRIPTION table) as [[|c text]|]; split; auto;
      try discriminate; intros [D | D]; discriminate. }
  split.
  { intros text -> N. destruct text; [contradiction | reflexivity]. }
  split; [destruct primaryKeys; split; auto; discriminate|].
  split; [destruct primaryKeys; [contradiction | reflexivity]|].
  split; [destruct foreignKeys; split; auto; discriminate|].
  split; [destruct foreignKeys; [contradiction | reflexivity]|].
  split; [destruct indexes; split; auto; discriminate|].
  intros N. destruct indexes as [|r indexes]; [contradiction|].
  unfold indexes_block. eexists. split; [|reflexivity]. discriminate.
Qed.

(** C5: when the connection is there and the enumeration of base tables
    returns no row, [inspectSchema] resolves with the title and nothing
    after it. *)
Theorem inspectSchema_no_tables config st st1 st2 :
  connect config st = (st1, Resolved tt) ->
  executeQuery config SelectTables st1 = (st2, Resolved []) ->
  inspectSchema config st
    = (st2, Resolved (lit "Database Schema:" ++ NL :: lit "================="
                        ++ [NL; NL])).
Proof.
  intros C Q. unfold inspectSchema. apply try_resolved.
  rewrite (bind_resolved _ _ _ _ _ C).
  destruct (connect_resolved_pool _ _ _ C) as [h E].
  unfold bind at 1. unfold get_pool. rewrite E.
  unfold bind at 1. unfold ret at 1.
  rewrite (bind_resolved _ _ _ _ _ Q). reflexivity.
Qed.

(** C3: a statement wrapped in a [sql] fence cleans to what the bare
    statement cleans to; and when the first choice of the model is the
    fenced [SELECT 1], [generateSQLQuery] resolves with [SELECT 1]. *)
Theorem cleanQuery_fence_roundtrip :
  (forall s : jsstring,
     cleanQuery (lit "```sql" ++ NL :: s ++ NL :: lit "```") = cleanQuery s)
  /\ (forall aiConfig prompt schema st w response choice rest,
        chat_create (generate_request aiConfig prompt schema) (world st)
          = (w, Resolved response) ->
        choices response = choice :: rest ->
        message_content (message choice)
          = Some (lit "```sql" ++ NL :: lit "SELECT 1" ++ NL :: lit "```") ->
        exists st',
          generateSQLQuery aiConfig prompt schema st
            = (st', Resolved (lit "SELECT 1"))).
Proof.
  split.
  - intros s. change (lit "```sql") with FENCE_SQL. change (lit "```") with FENCE.
    unfold cleanQuery. rewrite strip_sql_hit_nl.
    destruct (strip_sql_closing s) as [E | E]; rewrite E.
    + rewrite strip_fence_newline.
      change (NL :: strip_fence FENCE) with [NL].
      apply trim_app_spaces. reflexivity.
    + now rewrite strip_fence_closing.
  - intros aiConfig prompt schema st w response choice rest Hc Hr Hm.
    eexists. unfold generateSQLQuery, bind, call, first_content, ret.
    rewrite Hc. simpl. rewrite Hr, Hm. reflexivity.
Qed.

End Document.

(** C9: cleaning a cleaned statement changes nothing: the result of one
    pass contains no fence and has no white space at either end. *)
Theorem cleanQuery_idempotent (s : jsstring) :
  cleanQuery (cleanQuery s) = cleanQuery s
  /\ occurs (lit "```") (cleanQuery s) = false
  /\ trim (cleanQuery s) = cleanQuery s.
Proof.
  assert (F : occurs FENCE (cleanQuery s) = false)
    by (unfold cleanQuery; apply trim_clean, strip_fence_clean).
  assert (T : trim (cleanQuery s) = cleanQuery s)
    by (unfold cleanQuery; apply trim_idem).
  repeat split; [|exact F | exact T].
  unfold cleanQuery at 1.
  now rewrite (strip_sql_fixed _ F), (strip_fence_fixed _ F).
Qed.

(* ================================================================== *)
(** * The theorems at work on the concrete world *)

Lemma analyzeAndQuery_execute_failure_witness :
  exists st',
    @analyzeAndQuery world_select_1 tt demo_ai (lit "How many orders?")
      (demo_fresh world_select_1 0)
    = (st', Rejected (JsError (lit "Failed to analyze and query: " ++ demo_failure)))
    /\ only_events (fun ev => ~ is_format_call demo_ai ev)
         (demo_fresh world_select_1 0) st'.
Proof.
  eapply (@analyzeAndQuery_execute_failure world_select_1 tt demo_ai
            (lit "How many orders?") (demo_fresh world_select_1 0)).
  - vm_compute. reflexivity.
  - vm_compute. reflexivity.
  - vm_compute. reflexivity.
  - vm_compute. reflexivity.
Defined.

Lemma formatResponse_content_witness :
  exists st',
    ((@None jsstring = None \/ @None jsstring = Some []) ->
     @formatResponse world_empty demo_ai (lit "SELECT 1") []
       (demo_fresh world_empty 0) = (st', Resolved []))
    /\ (forall text, None = Some text ->
        @formatResponse world_empty demo_ai (lit "SELECT 1") []
          (demo_fresh world_empty 0) = (st', Resolved text)).
Proof.
  apply (@formatResponse_content world_empty demo_ai (lit "SELECT 1") []
           (demo_fresh world_empty 0) 1
           {| choices := [ {| message := {| message_content := None |} |} ] |}
           {| message := {| message_content := None |} |} []).
  - reflexivity.
  - reflexivity.
Defined.

Lemma connect_idempotent_witness :
  @connect world_empty tt (demo_connected [] None)
  = (demo_connected [] None, Resolved tt).
Proof.
  apply (proj1 (@connect_idempotent world_empty tt) (demo_connected [] None) 0).
  reflexivity.
Defined.

Lemma analyzeAndQuery_keeps_connection_witness :
  trace (fst (@analyzer_disconnect world_empty (demo_connected [] None)))
  = @EvClose world_empty 0 (Resolved tt) :: trace (demo_connected [] None).
Proof.
  apply (proj2 (proj2 (proj2
           (@analyzeAndQuery_keeps_connection world_empty tt demo_ai []
              (demo_connected [] None)))) 0).
  reflexivity.
Defined.

Lemma executeQuery_pool_present_witness :
  exists h,
    pool (fst (@connect world_empty tt (demo_fresh world_empty 2))) = Some h
    /\ @executeQuery world_empty tt _ SelectTables (demo_fresh world_empty 2)
       = call (@pool_query world_empty TableMetadata h SelectTables)
           (fun _ => EvQuery h TableMetadata SelectTables)
           (fst (@connect world_empty tt (demo_fresh world_empty 2))).
Proof.
  apply (proj1 (proj2 (@executeQuery_pool_present world_empty tt _
                         SelectTables (demo_fresh world_empty 2)))).
  - reflexivity.
  - reflexivity.
Defined.

Lemma inspectSchema_no_tables_witness :
  @inspectSchema world_empty tt (demo_fresh world_empty 0)
  = (@Build_State world_empty 2 (Some 0)
       [@EvQuery world_empty 0 TableMetadata SelectTables;
        @EvConnect world_empty tt (Resolved 0)],
     Resolved (lit "Database Schema:" ++ NL :: lit "=================" ++ [NL; NL])).
Proof.
  apply (@inspectSchema_no_tables world_empty tt (demo_fresh world_empty 0)
           (demo_connected [] None)).
  - reflexivity.
  - reflexivity.
Defined.

Lemma cleanQuery_fence_roundtrip_witness :
  exists st',
    @generateSQLQuery world_select_1 demo_ai (lit "one") TITLE
      (demo_fresh world_select_1 0)
    = (st', Resolved (lit "SELECT 1")).
Proof.
  apply (proj2 (@cleanQuery_fence_roundtrip world_select_1)
           demo_ai (lit "one") TITLE (demo_fresh world_select_1 0) 1
           {| choices := [ {| message := {| message_content := Some fenced_select_1 |} |} ] |}
           {| message := {| message_content := Some fenced_select_1 |} |} []).
  - reflexivity.
  - reflexivity.
  - reflexivity.
Defined.

Lemma table_section_blocks_witness :
  exists columns primaryKeys foreignKeys indexes,
    snd (@table_section world_select_1 tt TITLE users_table
           (demo_connected [users_table] (Some fenced_select_1)))
    = Resolved
        (TITLE ++ lit "Table: " ++ TABLE_NAME users_table ++ NL
           :: description_block users_table
           ++ SEPARATOR
           ++ lit "Columns:" ++ NL :: concat (map column_line columns)
           ++ primary_keys_block primaryKeys
           ++ foreign_keys_block foreignKeys
           ++ indexes_block first_flag indexes
           ++ [NL; NL]).
Proof.
  destruct (@table_section_blocks world_select_1 tt TITLE users_table
              (demo_connected [users_table] (Some fenced_select_1))
              (fst (@table_section world_select_1 tt TITLE users_table
                      (demo_connected [users_table] (Some fenced_select_1))))
              (match snd (@table_section world_select_1 tt TITLE users_table
                            (demo_connected [users_table] (Some fenced_select_1)))
               with
               | Resolved out => out
               | Rejected _ => []
               end))
    as (columns & primaryKeys & foreignKeys & indexes & st1 & st2 & st3
        & _ & _ & _ & _ & E & _).
  - vm_compute. reflexivity.
  - exists columns, primaryKeys, foreignKeys, indexes.
    rewrite <- E. vm_compute. reflexivity.
Defined.

(* ================================================================== *)
(** * What trimming leaves *)

Lemma trim_start_decomp s :
  exists lead, s = lead ++ trim_start s /\ forallb is_space lead = true.
Proof.
  induction s as [|c r (lead & E & F)]; [now exists []|].
  cbn [trim_start]. destruct (is_space c) eqn:C.
  - exists (c :: lead). split; [simpl; f_equal; exact E|].
    simpl. now rewrite C, F.
  - now exists [].
Qed.

Lemma trim_end_decomp s :
  exists tail, s = trim_end s ++ tail /\ forallb is_space tail = true.
Proof.
  induction s as [|c r (tail & E & F)]; [now exists []|].
  cbn [trim_end]. destruct (forallb is_space (c :: r)) eqn:C.
  - now exists (c :: r).
  - exists tail. split; [simpl; f_equal; exact E | exact F].
Qed.

Lemma trim_end_nil_spaces r : trim_end r = [] -> forallb is_space r = true.
Proof.
  destruct (forallb is_space r) eqn:E; [reflexivity|]. intros T.
  apply trim_end_not_spaces in E. rewrite T in E. discriminate E.
Qed.

Lemma trim_end_last_char s d :
  trim_end s <> [] -> is_space (last (trim_end s) d) = false.
Proof.
  induction s as [|c r IH]; [intros N; now contradiction N|].
  cbn [trim_end]. destruct (forallb is_space (c :: r)) eqn:E;
    [intros N; now contradiction N|].
  intros _. destruct (trim_end r) as [|x xs] eqn:T.
  - apply trim_end_nil_spaces in T. simpl in E. rewrite T, andb_true_r in E.
    exact E.
  - change (last (c :: x :: xs) d) with (last (x :: xs) d). apply IH. discriminate.
Qed.

Lemma trim_outer_space_free s : outer_space_free (trim s) = true.
Proof.
  unfold trim. destruct (trim_start_head s) as [E | (a & r & E & A)]; rewrite E.
  - reflexivity.
  - pose proof (trim_end_last_char (a :: r) a) as L. cbn [trim_end] in *.
    replace (forallb is_space (a :: r)) with false in * by (simpl; now rewrite A).
    unfold outer_space_free. rewrite L by discriminate. now rewrite A.
Qed.

(* ================================================================== *)
(** * Further properties: the connection and the stages *)

Section Lifecycle.
Context `{Externals}.

Lemma disconnect_no_pool st : pool st = None -> disconnect st = (st, Resolved tt).
Proof. intros E. unfold disconnect, bind, get_pool, ret. simpl. now rewrite E. Qed.

Lemma disconnect_resolved_pool st st1 :
  disconnect st = (st1, Resolved tt) -> pool st1 = None.
Proof.
  unfold disconnect, bind, get_pool, call, set_pool, ret. simpl.
  destruct (pool st) as [h|] eqn:E.
  - destruct (pool_close h (world st)) as [w [[] | err]]; intros [= <-]; reflexivity.
  - intros [= <-]. exact E.
Qed.

(** X1: [disconnect] without a pool changes nothing and makes no call;
    so a [disconnect] that follows a resolved [disconnect] is a no-op. *)
Theorem disconnect_idempotent st :
  (pool st = None -> disconnect st = (st, Resolved tt))
  /\ (forall st1, disconnect st = (st1, Resolved tt) ->
      disconnect st1 = (st1, Resolved tt)).
Proof.
  split; [apply disconnect_no_pool|].
  intros st1 D. apply disconnect_no_pool. exact (disconnect_resolved_pool _ _ D).
Qed.

(** X2: when [pool.close()] rejects, [disconnect] rejects with that very
    error, not wrapped, and [this.pool] still holds the handle. *)
Theorem disconnect_close_rejected st h w err :
  pool st = Some h ->
  pool_close h (world st) = (w, Rejected err) ->
  disconnect st
  = ({| world := w; pool := Some h;
        trace := EvClose h (Rejected err) :: trace st |}, Rejected err).
Proof.
  intros E C. unfold disconnect, bind, get_pool, call. simpl.
  now rewrite E, C, E.
Qed.

(** X3: a connection that cannot be opened surfaces through every layer
    with one more prefix each; the only call made is the failed connect,
    and no pool is held afterwards. *)
Theorem connect_failure_layers config st w err :
  pool st = None ->
  pool_connect config (world st) = (w, Rejected err) ->
  connect config st
  = ({| world := w; pool := None;
        trace := EvConnect config (Rejected err) :: trace st |},
     Rejected (JsError (lit "Failed to connect to database: "
                          ++ error_message err)))
  /\ inspectSchema config st
     = ({| world := w; pool := None;
           trace := EvConnect config (Rejected err) :: trace st |},
        Rejected (JsError (lit "Failed to inspect database schema: "
                             ++ lit "Failed to connect to database: "
                             ++ error_message err)))
  /\ (forall aiConfig prompt,
        analyzeAndQuery config aiConfig prompt st
        = ({| world := w; pool := None;
              trace := EvConnect config (Rejected err) :: trace st |},
           Rejected (JsError (lit "Failed to analyze and query: "
                                ++ lit "Failed to inspect database schema: "
                                ++ lit "Failed to connect to database: "
                                ++ error_message err)))).
Proof.
  intros E C.
  pose proof (connect_cases config st E) as K. rewrite C in K.
  set (st1 := {| world := w; pool := None;
                 trace := EvConnect config (Rejected err) :: trace st |}) in *.
  set (e1 := JsError (lit "Failed to connect to database: " ++ error_message err))
    in *.
  assert (I : inspectSchema config st
              = (st1, Rejected (JsError (lit "Failed to inspect database schema: "
                                           ++ error_message e1)))).
  { unfold inspectSchema. rewrite (try_rejected _ _ st st1 e1); [reflexivity|].
    apply bind_rejected. exact K. }
  split; [exact K|]. split; [exact I|].
  intros aiConfig prompt. unfold analyzeAndQuery.
  rewrite (try_rejected _ _ st st1
             (JsError (lit "Failed to inspect database schema: "
                         ++ error_message e1))); [reflexivity|].
  apply bind_rejected. exact I.
Qed.

Lemma wrapped_rejection {A} (m : M A) prefix st st' err :
  try_catch m (fun e => throw (JsError (prefix ++ error_message e))) st
    = (st', Rejected err) ->
  exists msg, err = JsError (prefix ++ msg).
Proof.
  unfold try_catch, throw. destruct (m st) as [s [a | e]]; intros [= _ <-].
  eauto.
Qed.

(** X4: whichever step fails inside, [connect], [inspectSchema] and
    [analyzeAndQuery] reject with an [Error] whose message starts with
    the prefix of the method; nothing else escapes them. *)
Theorem rejections_are_wrapped config aiConfig prompt st st' err :
  (connect config st = (st', Rejected err) ->
   exists msg, err = JsError (lit "Failed to connect to database: " ++ msg))
  /\ (inspectSchema config st = (st', Rejected err) ->
      exists msg, err = JsError (lit "Failed to inspect database schema: " ++ msg))
  /\ (analyzeAndQuery config aiConfig prompt st = (st', Rejected err) ->
      exists msg, err = JsError (lit "Failed to analyze and query: " ++ msg)).
Proof.
  repeat split; intros R.
  - unfold connect in R. exact (wrapped_rejection _ _ _ _ _ R).
  - unfold inspectSchema in R. exact (wrapped_rejection _ _ _ _ _ R).
  - unfold analyzeAndQuery in R. exact (wrapped_rejection _ _ _ _ _ R).
Qed.

Lemma executeQuery_held config T (q : Query T) st h :
  pool st = Some h ->
  pool (fst (executeQuery config q st)) = Some h
  /\ trace (fst (executeQuery config q st)) = EvQuery h T q :: trace st.
Proof.
  intros E. rewrite (executeQuery_live _ _ _ _ _ E).
  now rewrite call_pool, call_trace.
Qed.

Lemma formatResponse_runs aiConfig query results st w response choice rest :
  chat_create (format_request aiConfig query (JSON_stringify results)) (world st)
    = (w, Resolved response) ->
  choices response = choice :: rest ->
  formatResponse aiConfig query results st
  = ({| world := w; pool := pool st;
        trace := EvChat (format_request aiConfig query (JSON_stringify results))
                   :: trace st |},
     Resolved (or_empty (message_content (message choice)))).
Proof.
  intros Hc Hr. unfold formatResponse, bind, call, first_content, ret.
  rewrite Hc. simpl. now rewrite Hr.
Qed.

(** X5: when the four stages succeed, [analyzeAndQuery] resolves with the
    content of the first choice of the formatting call ([content || empty
    string]); after GENERATE it has run the generated statement on the
    held pool, logged the rows, and sent the same statement and rows to
    the model, in this order and nothing else. *)
Theorem analyzeAndQuery_success
    dbConfig aiConfig prompt st schema st1 query st2 h w3 rows w4 response
    choice rest :
  inspectSchema dbConfig st = (st1, Resolved schema) ->
  generateSQLQuery aiConfig prompt schema st1 = (st2, Resolved query) ->
  pool st2 = Some h ->
  pool_query _ h (SqlText query) (world st2) = (w3, Resolved rows) ->
  chat_create (format_request aiConfig query (JSON_stringify rows)) w3
    = (w4, Resolved response) ->
  choices response = choice :: rest ->
  analyzeAndQuery dbConfig aiConfig prompt st
  = ({| world := w4; pool := Some h;
        trace := EvChat (format_request aiConfig query (JSON_stringify rows))
                   :: EvConsoleLog rows
                   :: EvQuery h _ (SqlText query) :: trace st2 |},
     Resolved (or_empty (message_content (message choice)))).
Proof.
  intros H1 H2 Hp Hq Hc Hr. unfold analyzeAndQuery. apply try_resolved.
  rewrite (bind_resolved _ _ _ _ _ H1), (bind_resolved _ _ _ _ _ H2).
  assert (Hx : executeQuery dbConfig (SqlText query) st2
               = ({| world := w3; pool := pool st2;
                     trace := EvQuery h _ (SqlText query) :: trace st2 |},
                  Resolved rows)).
  { rewrite (executeQuery_live _ _ _ _ _ Hp). unfold call. now rewrite Hq. }
  rewrite (bind_resolved _ _ _ _ _ Hx).
  rewrite (bind_resolved _ _ _ _ _ (eq_refl : console_log rows _ = (_, Resolved tt))).
  rewrite (formatResponse_runs _ _ _ _ w4 response choice rest); [|exact Hc | exact Hr].
  simpl. now rewrite Hp.
Qed.

(** X13: when the model call of GENERATE rejects, [analyzeAndQuery]
    rejects with the wrapped message right after that call: no statement
    is executed and nothing is formatted. *)
Theorem analyzeAndQuery_generate_failure
    dbConfig aiConfig prompt st schema st1 w err :
  inspectSchema dbConfig st = (st1, Resolved schema) ->
  chat_create (generate_request aiConfig prompt schema) (world st1)
    = (w, Rejected err) ->
  analyzeAndQuery dbConfig aiConfig prompt st
  = ({| world := w; pool := pool st1;
        trace := EvChat (generate_request aiConfig prompt schema) :: trace st1 |},
     Rejected (JsError (lit "Failed to analyze and query: " ++ error_message err))).
Proof.
  intros H1 Hc. unfold analyzeAndQuery.
  rewrite (try_rejected _ _ st
             {| world := w; pool := pool st1;
                trace := EvChat (generate_request aiConfig prompt schema)
                           :: trace st1 |} err); [reflexivity|].
  rewrite (bind_resolved _ _ _ _ _ H1).
  apply bind_rejected.
  unfold generateSQLQuery, bind, call. now rewrite Hc.
Qed.

(** X12: a completion without any choice makes both methods of the
    assistant reject with an [Error] (reading [.message] of
    [choices[0]]); neither resolves with the empty string. *)
Theorem no_choice_rejects aiConfig st w response :
  choices response = [] ->
  (forall prompt schema,
     chat_create (generate_request aiConfig prompt schema) (world st)
       = (w, Resolved response) ->
     exists st' msg,
       generateSQLQuery aiConfig prompt schema st = (st', Rejected (JsError msg)))
  /\ (forall query results,
        chat_create (format_request aiConfig query (JSON_stringify results)) (world st)
          = (w, Resolved response) ->
        exists st' msg,
          formatResponse aiConfig query results st = (st', Rejected (JsError msg))).
Proof.
  intros Hr. split.
  - intros prompt schema Hc. do 2 eexists.
    unfold generateSQLQuery, bind, call, first_content, throw.
    rewrite Hc. simpl. rewrite Hr. reflexivity.
  - intros query results Hc. do 2 eexists.
    unfold formatResponse, bind, call, first_content, throw.
    rewrite Hc. simpl. rewrite Hr. reflexivity.
Qed.

(** X11: whatever text the model returns, a statement that
    [generateSQLQuery] resolves with contains no fence, and it is empty
    or its first and last code unit are not white space; for a first
    choice without content it is the empty statement. *)
Theorem generateSQLQuery_statement aiConfig prompt schema st :
  (forall st' query,
     generateSQLQuery aiConfig prompt schema st = (st', Resolved query) ->
     occurs (lit "```") query = false /\ outer_space_free query = true)
  /\ (forall w response choice rest,
        chat_create (generate_request aiConfig prompt schema) (world st)
          = (w, Resolved response) ->
        choices response = choice :: rest ->
        message_content (message choice) = None ->
        exists st', generateSQLQuery aiConfig prompt schema st = (st', Resolved [])).
Proof.
  split.
  - intros st' query. unfold generateSQLQuery, bind, call, first_content, ret, throw.
    destruct (chat_create _ (world st)) as [w [response | err]]; [|discriminate].
    simpl. destruct (choices response) as [|choice rest]; [discriminate|].
    intros [= _ <-]. split.
    + unfold cleanQuery. apply trim_clean, strip_fence_clean.
    + unfold cleanQuery. apply trim_outer_space_free.
  - intros w response choice rest Hc Hr Hm. eexists.
    unfold generateSQLQuery, bind, call, first_content, ret.
    rewrite Hc. simpl. rewrite Hr, Hm. reflexivity.
Qed.

End Lifecycle.

(* ================================================================== *)
(** * Further properties: the document and its queries *)

Section Sections.
Context `{Externals}.

Lemma table_section_resolved config schema table st st' out :
  table_section config schema table st = (st', Resolved out) ->
  section_of table (skipn (List.length schema) out)
  /\ out = schema ++ skipn (List.length schema) out.
Proof.
  unfold table_section, bind. intros R.
  destruct (executeQuery config (SelectColumns (TABLE_NAME table)) st)
    as [st1 [columns | ?]]; [|discriminate].
  destruct (executeQuery config (SelectPrimaryKeys (TABLE_NAME table)) st1)
    as [st2 [primaryKeys | ?]]; [|discriminate].
  destruct (executeQuery config (SelectForeignKeys (TABLE_NAME table)) st2)
    as [st3 [foreignKeys | ?]]; [|discriminate].
  destruct (executeQuery config (SelectIndexes (TABLE_NAME table)) st3)
    as [st4 [indexes | ?]]; [|discriminate].
  injection R as <- <-. cbv zeta.
  assert (E : add_indexes
                (add_foreign_keys
                   (add_primary_keys (add_columns (add_header schema table) columns)
                      primaryKeys) foreignKeys) indexes ++ [NL; NL]
              = schema ++ table_section_text table columns primaryKeys
                            foreignKeys indexes).
  { rewrite add_indexes_eq, add_foreign_keys_eq, add_primary_keys_eq,
      add_columns_eq, add_header_eq.
    unfold table_section_text. repeat (rewrite <- ?app_assoc; simpl). reflexivity. }
  rewrite E, skipn_app, Nat.sub_diag, skipn_all. simpl.
  split; [|reflexivity]. now exists columns, primaryKeys, foreignKeys, indexes.
Qed.

Lemma for_each_table_sections config tables schema st st' out :
  for_each_table config tables schema st = (st', Resolved out) ->
  exists sections, out = schema ++ concat sections /\ Forall2 section_of tables sections.
Proof.
  revert schema st. induction tables as [|t rest IH]; intros schema st R; simpl in R.
  - injection R as _ <-. exists []. split; [now rewrite app_nil_r | constructor].
  - unfold bind in R.
    destruct (table_section config schema t st) as [s1 [o1 | ?]] eqn:E; [|discriminate].
    destruct (IH _ _ R) as (sections & -> & F).
    destruct (table_section_resolved _ _ _ _ _ _ E) as [S1 E1].
    exists (skipn (List.length schema) o1 :: sections). split.
    + simpl. rewrite app_assoc, <- E1. reflexivity.
    + now constructor.
Qed.

(** The steps behind a resolved [inspectSchema]. *)
Lemma inspectSchema_steps config st st' document :
  inspectSchema config st = (st', Resolved document) ->
  exists st1 st2 tables,
    connect config st = (st1, Resolved tt)
    /\ executeQuery config SelectTables st1 = (st2, Resolved tables)
    /\ for_each_table config tables TITLE st2 = (st', Resolved document).
Proof.
  unfold inspectSchema, try_catch, throw. intros R.
  destruct (bind (connect config) _ st) as [s [doc | ?]] eqn:B; [|discriminate].
  injection R as -> ->. unfold bind in B.
  destruct (connect config st) as [st1 [[] | ?]] eqn:C; [|discriminate].
  unfold get_pool in B.
  destruct (pool st1) as [h|] eqn:P; [|discriminate].
  unfold ret in B.
  destruct (executeQuery config SelectTables st1) as [st2 [tables | ?]] eqn:Q;
    [|discriminate].
  now exists st1, st2, tables.
Qed.

(** X6: a document that [inspectSchema] resolves with is the title
    followed by one section per base table, in the order in which the
    catalog enumerated the tables, and nothing else. *)
Theorem inspectSchema_document config st st' document :
  inspectSchema config st = (st', Resolved document) ->
  exists st1 st2 tables sections,
    connect config st = (st1, Resolved tt)
    /\ executeQuery config SelectTables st1 = (st2, Resolved tables)
    /\ document = TITLE ++ concat sections
    /\ Forall2 section_of tables sections.
Proof.
  intros R.
  destruct (inspectSchema_steps _ _ _ _ R) as (st1 & st2 & tables & C & Q & B).
  destruct (for_each_table_sections _ _ _ _ _ _ B) as (sections & E & F).
  now exists st1, st2, tables, sections.
Qed.

Lemma executeQuery_held_resolved config T (q : Query T) st h st1 rows :
  pool st = Some h ->
  executeQuery config q st = (st1, Resolved rows) ->
  pool st1 = Some h /\ trace st1 = EvQuery h T q :: trace st.
Proof.
  intros E R. destruct (executeQuery_held config T q st h E) as [P Tr].
  now rewrite R in P, Tr.
Qed.

Lemma table_section_trace config schema table st h st' out :
  pool st = Some h ->
  table_section config schema table st = (st', Resolved out) ->
  pool st' = Some h /\ trace st' = table_queries h table ++ trace st.
Proof.
  intros P. unfold table_section, bind. intros R.
  destruct (executeQuery config (SelectColumns (TABLE_NAME table)) st)
    as [st1 [columns | ?]] eqn:E1; [|discriminate].
  destruct (executeQuery_held_resolved _ _ _ _ _ _ _ P E1) as [P1 T1].
  destruct (executeQuery config (SelectPrimaryKeys (TABLE_NAME table)) st1)
    as [st2 [primaryKeys | ?]] eqn:E2; [|discriminate].
  destruct (executeQuery_held_resolved _ _ _ _ _ _ _ P1 E2) as [P2 T2].
  destruct (executeQuery config (SelectForeignKeys (TABLE_NAME table)) st2)
    as [st3 [foreignKeys | ?]] eqn:E3; [|discriminate].
  destruct (executeQuery_held_resolved _ _ _ _ _ _ _ P2 E3) as [P3 T3].
  destruct (executeQuery config (SelectIndexes (TABLE_NAME table)) st3)
    as [st4 [indexes | ?]] eqn:E4; [|discriminate].
  destruct (executeQuery_held_resolved _ _ _ _ _ _ _ P3 E4) as [P4 T4].
  injection R as <- _. split; [exact P4|].
  rewrite T4, T3, T2, T1. reflexivity.
Qed.

Lemma for_each_table_trace config tables schema st h st' out :
  pool st = Some h ->
  for_each_table config tables schema st = (st', Resolved out) ->
  pool st' = Some h
  /\ trace st' = concat (map (table_queries h) (rev tables)) ++ trace st.
Proof.
  revert schema st. induction tables as [|t rest IH]; intros schema st P R; simpl in R.
  - injection R as <- _. auto.
  - unfold bind in R.
    destruct (table_section config schema t st) as [s1 [o1 | ?]] eqn:E; [|discriminate].
    destruct (table_section_trace _ _ _ _ _ _ _ P E) as [P1 T1].
    destruct (IH _ _ P1 R) as [P2 T2]. split; [exact P2|].
    rewrite T2, T1. simpl rev. rewrite map_app, concat_app. simpl.
    now rewrite <- !app_assoc.
Qed.

(** X7: on an inspector that holds the pool [h], a resolved
    [inspectSchema] has sent exactly these statements, all on [h] and one
    after the other: the enumeration of the tables, then for each table
    in enumeration order its columns, primary keys, foreign keys and
    indexes; it opened no connection and still holds [h]. *)
Theorem inspectSchema_queries config st h st' document :
  pool st = Some h ->
  inspectSchema config st = (st', Resolved document) ->
  exists st2 tables,
    executeQuery config SelectTables st = (st2, Resolved tables)
    /\ pool st' = Some h
    /\ trace st'
       = concat (map (table_queries h) (rev tables))
           ++ EvQuery h _ SelectTables :: trace st.
Proof.
  intros P R.
  destruct (inspectSchema_steps _ _ _ _ R) as (st1 & st2 & tables & C & Q & B).
  rewrite (connect_live _ _ _ P) in C. injection C as <-.
  destruct (executeQuery_held_resolved _ _ _ _ _ _ _ P Q) as [P2 T2].
  destruct (for_each_table_trace _ _ _ _ _ _ _ P2 B) as [P3 T3].
  exists st2, tables. split; [exact Q|]. split; [exact P3|].
  now rewrite T3, T2.
Qed.

Lemma for_each_table_stops config done t rest schema st st1 partial st2 err :
  for_each_table config done schema st = (st1, Resolved partial) ->
  table_section config partial t st1 = (st2, Rejected err) ->
  for_each_table config (done ++ t :: rest) schema st = (st2, Rejected err).
Proof.
  revert schema st. induction done as [|d done IH]; intros schema st D F; simpl in *.
  - injection D as <- <-. now apply bind_rejected.
  - unfold bind in *.
    destruct (table_section config schema d st) as [s1 [o1 | ?]]; [|discriminate].
    now apply IH.
Qed.

(** X15: when a catalog statement of some table fails, [inspectSchema]
    rejects with the wrapped message of that failure and stops there: the
    tables after it are not queried and the sections built so far are
    dropped. *)
Theorem inspectSchema_table_failure
    config st st1 st2 done t rest st3 partial st4 err :
  connect config st = (st1, Resolved tt) ->
  executeQuery config SelectTables st1 = (st2, Resolved (done ++ t :: rest)) ->
  for_each_table config done TITLE st2 = (st3, Resolved partial) ->
  table_section config partial t st3 = (st4, Rejected err) ->
  inspectSchema config st
  = (st4, Rejected (JsError (lit "Failed to inspect database schema: "
                               ++ error_message err))).
Proof.
  intros C Q D F. unfold inspectSchema.
  rewrite (try_rejected _ _ st st4 err); [reflexivity|].
  rewrite (bind_resolved _ _ _ _ _ C).
  destruct (connect_resolved_pool _ _ _ C) as [h E].
  unfold bind at 1. unfold get_pool. rewrite E.
  unfold bind at 1. unfold ret at 1.
  rewrite (bind_resolved _ _ _ _ _ Q).
  exact (for_each_table_stops _ _ _ _ _ _ _ _ _ _ D F).
Qed.

End Sections.

(* ================================================================== *)
(** * Further properties: one pool for the whole pipeline *)

Section FrameByMethod.
Context `{Externals}.
Variable R : State -> State -> Prop.
Hypothesis R_refl : forall st, R st st.
Hypothesis R_trans : forall a b c, R a b -> R b c -> R a c.
Variable config : sql_config.
Variable aiConfig : AIClientConfig.
Hypothesis kept_by_connect : keeps R (connect config).
Hypothesis kept_by_executeQuery :
  forall T (q : Query T), keeps R (executeQuery config q).
Hypothesis kept_by_chat :
  forall request, keeps R (call (chat_create request) (fun _ => EvChat request)).
Hypothesis kept_by_console_log : forall results, keeps R (console_log results).

Lemma kept_by_for_each_table tables schema :
  keeps R (for_each_table config tables schema).
Proof.
  revert schema. induction tables as [|t ts IH]; intros schema; simpl.
  - now apply keeps_ret.
  - apply keeps_bind; [assumption | | apply IH].
    unfold table_section.
    repeat (apply keeps_bind; [assumption | apply kept_by_executeQuery | intros ?]).
    now apply keeps_ret.
Qed.

Lemma kept_by_inspectSchema : keeps R (inspectSchema config).
Proof.
  unfold inspectSchema.
  apply keeps_try_catch; [assumption | | intros; now apply keeps_throw].
  apply keeps_bind; [assumption | assumption | intros _].
  apply keeps_bind; [assumption | now apply keeps_get_pool | intros p].
  apply keeps_bind; [assumption | | intros _].
  - destruct p; [now apply keeps_ret | now apply keeps_throw].
  - apply keeps_bind; [assumption | apply kept_by_executeQuery | intros tables].
    apply kept_by_for_each_table.
Qed.

Lemma kept_by_analyzeAndQuery prompt :
  keeps R (analyzeAndQuery config aiConfig prompt).
Proof.
  unfold analyzeAndQuery.
  apply keeps_try_catch; [assumption | | intros; now apply keeps_throw].
  apply keeps_bind; [assumption | apply kept_by_inspectSchema | intros schema].
  apply keeps_bind; [assumption | | intros query].
  { now apply keeps_generateSQLQuery. }
  apply keeps_bind; [assumption | apply kept_by_executeQuery | intros results].
  apply keeps_bind; [assumption | apply kept_by_console_log | intros _].
  now apply keeps_formatResponse.
Qed.

End FrameByMethod.

Section OnePool.
Context `{Externals}.

Lemma held_pool_only_refl h st : held_pool_only h st st.
Proof. intros P. split; [exact P | apply only_events_refl]. Qed.

Lemma held_pool_only_trans h a b c :
  held_pool_only h a b -> held_pool_only h b c -> held_pool_only h a c.
Proof.
  intros H1 H2 P. destruct (H1 P) as [P1 E1]. destruct (H2 P1) as [P2 E2].
  split; [exact P2 | eapply only_events_trans; eassumption].
Qed.

Lemma held_pool_only_call {A} h (f : World -> World * Outcome A) ev :
  (forall r, on_pool h (ev r)) -> keeps (held_pool_only h) (call f ev).
Proof.
  intros Hev st P. split; [now rewrite call_pool|].
  now apply only_events_call.
Qed.

(** X14: on an inspector that holds the pool [h], [analyzeAndQuery]
    opens no connection, closes none and sends every statement to [h],
    whether it resolves or rejects; [h] is still held at the end, so a
    retry after a failure runs on the same connection. *)
Theorem analyzeAndQuery_one_pool dbConfig aiConfig prompt st h :
  pool st = Some h ->
  pool (fst (analyzeAndQuery dbConfig aiConfig prompt st)) = Some h
  /\ only_events (on_pool h) st (fst (analyzeAndQuery dbConfig aiConfig prompt st)).
Proof.
  revert st.
  apply (kept_by_analyzeAndQuery (held_pool_only h) (held_pool_only_refl h)
           (held_pool_only_trans h) dbConfig aiConfig).
  - intros st P. rewrite (connect_live _ _ _ P). now apply held_pool_only_refl.
  - intros T q st P. rewrite (executeQuery_live _ _ _ _ _ P).
    revert P. apply held_pool_only_call. intros r. reflexivity.
  - intros request. apply held_pool_only_call. intros r. exact I.
  - intros results st P. split; [exact P|].
    apply only_events_console_log. exact I.
Qed.

End OnePool.

(* ================================================================== *)
(** * Further properties: lines of the document *)

(** X8: a column line is [- name (type)], then the qualifiers in square
    brackets, then the description on a line of its own, then a newline.
    [NOT NULL] is there iff [IS_NULLABLE] is exactly [NO]; [DEFAULT: d]
    iff the default is not null, also for an empty [d]; with both, they
    are separated by a comma; with neither there are no brackets.  The
    description line is there iff the description is a non-empty
    string. *)
Theorem add_column_line schema column :
  exists qualifiers description,
    add_column schema column
    = schema ++ lit "- " ++ COLUMN_NAME column ++ lit " (" ++ DATA_TYPE column
        ++ lit ")" ++ qualifiers ++ description ++ [NL]
    /\ (IS_NULLABLE column = lit "NO" ->
        forall d, COLUMN_DEFAULT column = Some d ->
        qualifiers = lit " [NOT NULL, DEFAULT: " ++ d ++ lit "]")
    /\ (IS_NULLABLE column = lit "NO" -> COLUMN_DEFAULT column = None ->
        qualifiers = lit " [NOT NULL]")
    /\ (IS_NULLABLE column <> lit "NO" ->
        forall d, COLUMN_DEFAULT column = Some d ->
        qualifiers = lit " [DEFAULT: " ++ d ++ lit "]")
    /\ (IS_NULLABLE column <> lit "NO" -> COLUMN_DEFAULT column = None ->
        qualifiers = [])
    /\ (forall text, COLUMN_DESCRIPTION column = Some text -> text <> [] ->
        description = NL :: lit "  Description: " ++ text)
    /\ (COLUMN_DESCRIPTION column = None \/ COLUMN_DESCRIPTION column = Some [] ->
        description = []).
Proof.
  exists (match column_properties column with
          | [] => []
          | properties => lit " [" ++ join (lit ", ") properties ++ lit "]"
          end),
         (match COLUMN_DESCRIPTION column with
          | Some (c :: text) => NL :: lit "  Description: " ++ c :: text
          | _ => []
          end).
  split; [rewrite add_column_eq; unfold column_line;
          repeat (rewrite <- ?app_assoc; simpl); reflexivity|].
  unfold column_properties.
  repeat split.
  - intros -> d ->. rewrite jsstring_eqb_refl. simpl.
    repeat (rewrite <- ?app_assoc; simpl). reflexivity.
  - intros -> ->. rewrite jsstring_eqb_refl. reflexivity.
  - intros N d ->. rewrite (jsstring_eqb_neq _ _ N). simpl.
    repeat (rewrite <- ?app_assoc; simpl). reflexivity.
  - intros N ->. rewrite (jsstring_eqb_neq _ _ N). reflexivity.
  - intros text -> N. destruct text; [contradiction | reflexivity].
  - intros [-> | ->]; reflexivity.
Qed.

Lemma map_rows_push k c m :
  map_has k m = true ->
  Permutation (map_rows (map_push_column k c m)) ((k, c) :: map_rows m).
Proof.
  induction m as [|[k' v'] m IH]; cbn [map_has map_push_column]; [discriminate|].
  destruct (jsstring_eqb k' k) eqn:E.
  - intros _. apply jsstring_eqb_eq in E. subst k'.
    unfold map_rows. cbn [map concat fst snd columns].
    rewrite map_app, <- app_assoc. symmetry. apply Permutation_middle.
  - cbn [orb]. intros P. unfold map_rows. cbn [map concat fst snd].
    eapply Permutation_trans; [apply Permutation_app_head, (IH P)|].
    symmetry. apply Permutation_middle.
Qed.

Lemma map_rows_set_new k u m :
  map_has k m = false ->
  map_rows (map_set k {| columns := []; isUnique := u |} m) = map_rows m.
Proof.
  unfold map_rows. induction m as [|[k' v'] m IH]; cbn [map_has map_set];
    [reflexivity|].
  destruct (jsstring_eqb k' k); [discriminate|]. cbn [orb]. intros P.
  cbn [map concat]. now rewrite (IH P).
Qed.

Lemma map_rows_collect m r :
  Permutation (map_rows (collect_index m r)) (row_pair r :: map_rows m).
Proof.
  unfold collect_index, row_pair.
  destruct (map_has (INDEX_NAME r) m) eqn:P; cbn [negb].
  - now apply map_rows_push.
  - eapply Permutation_trans; [apply map_rows_push, map_has_set|].
    now rewrite map_rows_set_new.
Qed.

(** X16: the grouping of the index rows loses and repeats nothing: the
    pairs of index name and column held by the map are those of the
    catalog rows, each as often as it is returned, and every index name
    has one entry only. *)
Theorem collect_index_keeps_rows indexes :
  Permutation (map_rows (fold_left collect_index indexes [])) (map row_pair indexes)
  /\ NoDup (map fst (fold_left collect_index indexes [])).
Proof.
  split.
  - induction indexes as [|r indexes IH] using rev_ind; [constructor|].
    rewrite fold_left_app, map_app. cbn [fold_left map].
    eapply Permutation_trans; [apply map_rows_collect|].
    eapply Permutation_trans; [apply perm_skip, IH|].
    apply Permutation_cons_append.
  - rewrite collect_all. unfold grouped. rewrite map_fst_keys.
    apply first_seen_NoDup.
Qed.

(* ================================================================== *)
(** * Further properties of [cleanQuery] *)

Lemma strip_sql_plain_fence (x : jsstring) :
  strip_sql (FENCE ++ NL :: x) = FENCE ++ NL :: strip_sql x.
Proof.
  unfold FENCE. cbn [app].
  rewrite strip_sql_miss by reflexivity.
  rewrite strip_sql_miss by reflexivity.
  rewrite strip_sql_miss by reflexivity.
  rewrite strip_sql_miss by reflexivity.
  reflexivity.
Qed.

(** X9: a statement wrapped in a fence without language tag cleans to
    what the bare statement cleans to, for every statement. *)
Theorem cleanQuery_plain_fence (s : jsstring) :
  cleanQuery (lit "```" ++ NL :: s ++ NL :: lit "```") = cleanQuery s.
Proof.
  change (lit "```") with FENCE. unfold cleanQuery.
  rewrite strip_sql_plain_fence, strip_fence_hit.
  rewrite strip_fence_miss by reflexivity.
  unfold trim. change (trim_start (NL :: ?x)) with (trim_start x).
  destruct (strip_sql_closing s) as [E | E]; rewrite E.
  - rewrite strip_fence_newline.
    change (NL :: strip_fence FENCE) with [NL].
    apply trim_app_spaces. reflexivity.
  - now rewrite strip_fence_closing.
Qed.

Lemma trim_end_last l b : is_space b = false -> trim_end (l ++ [b]) = l ++ [b].
Proof.
  intros B. induction l as [|c l IH]; cbn [app trim_end].
  - simpl. now rewrite B.
  - rewrite IH.
    replace (forallb is_space (c :: l ++ [b])) with false; [reflexivity|].
    symmetry. simpl. rewrite forallb_app. simpl. rewrite B.
    now rewrite andb_false_r, andb_false_r.
Qed.

(** X10: a statement without three backticks in a row is only trimmed:
    it is the result with white space before and after it, where the
    result is empty or starts and ends with a code unit that is not
    white space; so the inside is returned as it is, and the whole
    statement when it neither starts nor ends with white space. *)
Theorem cleanQuery_without_fence (s : jsstring) :
  occurs (lit "```") s = false ->
  (exists lead tail,
     s = lead ++ cleanQuery s ++ tail
     /\ forallb is_space lead = true /\ forallb is_space tail = true
     /\ outer_space_free (cleanQuery s) = true)
  /\ (forall a mid b, s = a :: mid ++ [b] ->
        is_space a = false -> is_space b = false -> cleanQuery s = s).
Proof.
  change (lit "```") with FENCE. intros F.
  assert (E : cleanQuery s = trim s).
  { unfold cleanQuery. now rewrite (strip_sql_fixed _ F), (strip_fence_fixed _ F). }
  split.
  - rewrite E. unfold trim at 1.
    destruct (trim_start_decomp s) as (lead & E1 & F1).
    destruct (trim_end_decomp (trim_start s)) as (tail & E2 & F2).
    exists lead, tail. split; [now rewrite <- E2|].
    split; [exact F1|]. split; [exact F2|]. apply trim_outer_space_free.
  - intros a mid b -> A B. rewrite E. unfold trim. cbn [trim_start]. rewrite A.
    change (a :: mid ++ [b]) with ((a :: mid) ++ [b]). now apply trim_end_last.
Qed.

(* ================================================================== *)
(** * The further properties at work on the scripted worlds *)

Lemma disconnect_idempotent_witness :
  @disconnect world_answers (fst (@disconnect world_answers (holding world_answers 0 7)))
  = (fst (@disconnect world_answers (holding world_answers 0 7)), Resolved tt).
Proof.
  apply (proj2 (@disconnect_idempotent world_answers (holding world_answers 0 7))).
  reflexivity.
Defined.

Lemma disconnect_close_rejected_witness :
  @disconnect world_close_fails (holding world_close_fails 0 7)
  = (@Build_State world_close_fails 1 (Some 7)
       [@EvClose world_close_fails 7 (Rejected (JsError (lit "ECONNCLOSED")))],
     Rejected (JsError (lit "ECONNCLOSED"))).
Proof.
  apply (@disconnect_close_rejected world_close_fails (holding world_close_fails 0 7)
           7 1 (JsError (lit "ECONNCLOSED"))).
  - reflexivity.
  - reflexivity.
Defined.

Lemma connect_failure_layers_witness :
  snd (@analyzeAndQuery world_down tt demo_ai (lit "How many users?")
         (demo_fresh world_down 0))
  = Rejected (JsError (lit "Failed to analyze and query: "
                         ++ lit "Failed to inspect database schema: "
                         ++ lit "Failed to connect to database: "
                         ++ lit "ETIMEOUT")).
Proof.
  rewrite (proj2 (proj2 (@connect_failure_layers world_down tt
                           (demo_fresh world_down 0) 1 (JsError (lit "ETIMEOUT"))
                           eq_refl eq_refl))).
  reflexivity.
Defined.

Lemma rejections_are_wrapped_witness :
  exists msg,
    JsError (lit "Failed to connect to database: " ++ lit "ETIMEOUT")
    = JsError (lit "Failed to connect to database: " ++ msg).
Proof.
  apply (proj1 (@rejections_are_wrapped world_down tt demo_ai []
                  (demo_fresh world_down 0)
                  (fst (@connect world_down tt (demo_fresh world_down 0)))
                  (JsError (lit "Failed to connect to database: " ++ lit "ETIMEOUT")))).
  reflexivity.
Defined.

Lemma analyzeAndQuery_success_witness :
  exists st',
    @analyzeAndQuery world_answers tt demo_ai (lit "How many users?")
      (demo_fresh world_answers 0)
    = (st', Resolved (lit "SELECT 3")).
Proof.
  eexists. eapply eq_trans.
  - eapply (@analyzeAndQuery_success world_answers tt demo_ai
              (lit "How many users?") (demo_fresh world_answers 0)).
    + vm_compute. reflexivity.
    + vm_compute. reflexivity.
    + vm_compute. reflexivity.
    + vm_compute. reflexivity.
    + vm_compute. reflexivity.
    + vm_compute. reflexivity.
  - reflexivity.
Defined.

Lemma analyzeAndQuery_generate_failure_witness :
  snd (@analyzeAndQuery world_model_down tt demo_ai (lit "How many users?")
         (demo_fresh world_model_down 0))
  = Rejected (JsError (lit "Failed to analyze and query: "
                         ++ lit "429 Too Many Requests")).
Proof.
  eapply eq_trans.
  - eapply (f_equal snd).
    eapply (@analyzeAndQuery_generate_failure world_model_down tt demo_ai
              (lit "How many users?") (demo_fresh world_model_down 0)).
    + vm_compute. reflexivity.
    + vm_compute. reflexivity.
  - reflexivity.
Defined.

Lemma no_choice_rejects_witness :
  exists st' msg,
    @generateSQLQuery world_no_choice demo_ai (lit "How many users?") TITLE
      (demo_fresh world_no_choice 0)
    = (st', Rejected (JsError msg)).
Proof.
  apply (proj1 (@no_choice_rejects world_no_choice demo_ai
                  (demo_fresh world_no_choice 0) 1 {| choices := [] |} eq_refl)).
  reflexivity.
Defined.

Lemma generateSQLQuery_statement_witness :
  snd (@generateSQLQuery world_messy demo_ai (lit "How many users?") TITLE
         (demo_fresh world_messy 0))
  = Resolved (lit "SELECT 1")
  /\ occurs (lit "```") (lit "SELECT 1") = false
  /\ outer_space_free (lit "SELECT 1") = true.
Proof.
  split; [vm_compute; reflexivity|].
  apply (proj1 (@generateSQLQuery_statement world_messy demo_ai
                  (lit "How many users?") TITLE (demo_fresh world_messy 0))
           (fst (@generateSQLQuery world_messy demo_ai (lit "How many users?")
                   TITLE (demo_fresh world_messy 0)))).
  vm_compute. reflexivity.
Defined.

Lemma inspectSchema_document_witness :
  exists tables sections,
    snd (@inspectSchema world_answers tt (demo_fresh world_answers 0))
    = Resolved (TITLE ++ concat sections)
    /\ Forall2 section_of tables sections.
Proof.
  destruct (@inspectSchema_document world_answers tt (demo_fresh world_answers 0)
              (fst (@inspectSchema world_answers tt (demo_fresh world_answers 0)))
              (match snd (@inspectSchema world_answers tt (demo_fresh world_answers 0))
               with
               | Resolved document => document
               | Rejected _ => []
               end))
    as (st1 & st2 & tables & sections & _ & _ & E & F).
  - vm_compute. reflexivity.
  - exists tables, sections. split; [|exact F].
    rewrite <- E. vm_compute. reflexivity.
Defined.

Lemma inspectSchema_queries_witness :
  exists tables,
    trace (fst (@inspectSchema world_answers tt (holding world_answers 0 7)))
    = concat (map (@table_queries world_answers 7) (rev tables))
        ++ [@EvQuery world_answers 7 _ SelectTables].
Proof.
  destruct (@inspectSchema_queries world_answers tt (holding world_answers 0 7) 7
              (fst (@inspectSchema world_answers tt (holding world_answers 0 7)))
              (match snd (@inspectSchema world_answers tt (holding world_answers 0 7))
               with
               | Resolved document => document
               | Rejected _ => []
               end))
    as (st2 & tables & _ & _ & T).
  - reflexivity.
  - vm_compute. reflexivity.
  - exists tables. exact T.
Defined.

Lemma inspectSchema_table_failure_witness :
  snd (@inspectSchema world_broken_catalog tt (demo_fresh world_broken_catalog 0))
  = Rejected (JsError (lit "Failed to inspect database schema: "
                         ++ lit "permission denied")).
Proof.
  eapply eq_trans.
  - eapply (f_equal snd).
    eapply (@inspectSchema_table_failure world_broken_catalog tt
              (demo_fresh world_broken_catalog 0) _ _ [] users_table [users_table]).
    + vm_compute. reflexivity.
    + vm_compute. reflexivity.
    + vm_compute. reflexivity.
    + vm_compute. reflexivity.
  - reflexivity.
Defined.

Lemma analyzeAndQuery_one_pool_witness :
  pool (fst (@analyzeAndQuery world_answers tt demo_ai (lit "How many users?")
               (holding world_answers 0 7)))
  = Some 7.
Proof.
  apply (proj1 (@analyzeAndQuery_one_pool world_answers tt demo_ai
                  (lit "How many users?") (holding world_answers 0 7) 7 eq_refl)).
Defined.

Lemma add_column_line_witness :
  exists description,
    add_column [] plain_column
    = lit "- " ++ lit "Country" ++ lit " (" ++ lit "varchar" ++ lit ")"
        ++ (lit " [NOT NULL, DEFAULT: " ++ lit "'UA'" ++ lit "]")
        ++ description ++ [NL].
Proof.
  destruct (add_column_line [] plain_column) as (q & d & E & Q & _).
  exists d. rewrite E, (Q eq_refl _ eq_refl). reflexivity.
Defined.

Lemma cleanQuery_without_fence_witness :
  exists lead tail,
    padded_statement = lead ++ cleanQuery padded_statement ++ tail
    /\ forallb is_space lead = true /\ forallb is_space tail = true
    /\ outer_space_free (cleanQuery padded_statement) = true.
Proof.
  apply (proj1 (cleanQuery_without_fence padded_statement eq_refl)).
Defined.
